(** * datastructure/ringbuffer.go: the generic ring buffer

    A shallow embedding of [RingBuffer[T]] (package [datastructure]) and of
    its constructor and four methods, followed by the properties of the
    buffer.

    Conventions of the embedding:
    - Go's [int] is the 64-bit signed integer of the usual targets: a [Z]
      with the two's-complement wrap-around of [+] and [-] written out
      ([GoInt.wrap]); [%] is Go's truncated remainder ([Z.rem]) and panics
      on a zero divisor.
    - The slice [data] is a [list T]; an index expression checks its bounds
      and panics outside them, as the Go run time does.  [make([]T, n)]
      panics on a negative [n] and when [n] elements of [T] exceed the
      run time's allocation limit ([Sizeof], [GoInt.max_alloc]); within
      the limit it is taken to return, so running out of memory is not
      modelled.
    - A method is a function from the receiver's state to the new state and
      an outcome: it returns a value, panics, or blocks in [Lock].  The
      state after a panic is the state at the point of the panic once the
      deferred [Unlock] has run, which is what a caller that recovers sees.
    - The mutex is the boolean [mu] (held or free); the model is
      sequential, so a held mutex at entry stands for another goroutine
      holding it. *)

From Stdlib Require Import ZArith Lia Bool.
From stdpp Require Import base numbers option list.

Local Open Scope Z_scope.

(** ** Go's [int] *)

Module GoInt.

Definition min_int : Z := - 2 ^ 63.
Definition max_int : Z := 2 ^ 63 - 1.

(** The value an [int] holds after an arithmetic result [z]. *)
Definition wrap (z : Z) : Z := (z + 2 ^ 63) mod 2 ^ 64 - 2 ^ 63.

Definition add (x y : Z) : Z := wrap (x + y).
Definition sub (x y : Z) : Z := wrap (x - y).

Definition is_int (z : Z) : Prop := min_int <= z <= max_int.

(** The run time's [maxAlloc] on the 64-bit targets: [make] rejects a slice
    of more bytes. *)
Definition max_alloc : Z := 2 ^ 48.

#[global] Arguments min_int : simpl never.
#[global] Arguments max_int : simpl never.

End GoInt.

Abbreviation max_int := GoInt.max_int.
Abbreviation min_int := GoInt.min_int.
Abbreviation max_alloc := GoInt.max_alloc.

(** [unsafe.Sizeof] of a value of the type, in bytes. *)
Class Sizeof (T : Type) : Type := sizeof : Z.

(** [struct{}] *)
#[export] Instance unit_Sizeof : Sizeof unit := 0.
(** [int] *)
#[export] Instance int_Sizeof : Sizeof Z := 8.

Infix "+i" := GoInt.add (at level 50, left associativity).
Infix "-i" := GoInt.sub (at level 50, left associativity).

(** ** Outcomes of a call *)

Inductive panic : Type :=
| DivideByZero                    (* integer divide by zero *)
| IndexOutOfRange (i len : Z)     (* index out of range [i] with length len *)
| MakeSliceLen.                   (* makeslice: len out of range *)

Inductive result (A : Type) : Type :=
| Done (a : A)          (* the call returned [a] *)
| Panicked (p : panic)  (* the call panicked *)
| Blocked.              (* the call waits in [Lock] for a held mutex *)

Arguments Done {A} a.
Arguments Panicked {A} p.
Arguments Blocked {A}.

(** [x % y] *)
Definition go_rem (x y : Z) : result Z :=
  if y =? 0 then Panicked DivideByZero else Done (Z.rem x y).

(** ** The buffer *)

Module RB.
Section RingBuffer.

Context {T : Type}.
(** The zero value of [T]. *)
Variable zero : T.

Record RingBuffer : Type := mkRingBuffer {
  data : list T;     (* underlying storage *)
  capacity : Z;      (* fixed capacity *)
  start : Z;         (* index of the oldest element *)
  size : Z;          (* current number of elements *)
  mu : bool          (* the mutex: [true] while held *)
}.

Definition set_data (d : list T) (b : RingBuffer) : RingBuffer :=
  mkRingBuffer d (capacity b) (start b) (size b) (mu b).
Definition set_start (s : Z) (b : RingBuffer) : RingBuffer :=
  mkRingBuffer (data b) (capacity b) s (size b) (mu b).
Definition set_size (n : Z) (b : RingBuffer) : RingBuffer :=
  mkRingBuffer (data b) (capacity b) (start b) n (mu b).
Definition set_mu (m : bool) (b : RingBuffer) : RingBuffer :=
  mkRingBuffer (data b) (capacity b) (start b) (size b) m.

(** *** Method bodies: state and outcome *)

Definition M (A : Type) : Type := RingBuffer -> RingBuffer * result A.

Definition ret {A} (a : A) : M A := fun b => (b, Done a).

Definition bind {A B} (m : M A) (k : A -> M B) : M B :=
  fun b =>
    match m b with
    | (b', Done a) => k a b'
    | (b', Panicked p) => (b', Panicked p)
    | (b', Blocked) => (b', Blocked)
    end.

(** The receiver as it is now. *)
Definition get : M RingBuffer := fun b => (b, Done b).

(** An assignment to a field. *)
Definition assign (f : RingBuffer -> RingBuffer) : M unit :=
  fun b => (f b, Done tt).

(** An [int] expression, which may panic. *)
Definition eval {A} (r : result A) : M A := fun b => (b, r).

(** [b.data[i]] as a value. *)
Definition load (i : Z) : M T :=
  fun b =>
    let len := Z.of_nat (length (data b)) in
    if (0 <=? i) && (i <? len)
    then match data b !! Z.to_nat i with
         | Some x => (b, Done x)
         | None => (b, Panicked (IndexOutOfRange i len))
         end
    else (b, Panicked (IndexOutOfRange i len)).

(** [b.data[i] = x] *)
Definition store (i : Z) (x : T) : M unit :=
  fun b =>
    let len := Z.of_nat (length (data b)) in
    if (0 <=? i) && (i <? len)
    then (set_data (<[Z.to_nat i := x]> (data b)) b, Done tt)
    else (b, Panicked (IndexOutOfRange i len)).

(** [b.mu.Lock()] *)
Definition Lock : M unit :=
  fun b => if mu b then (b, Blocked) else (set_mu true b, Done tt).

(** [b.mu.Unlock()] *)
Definition Unlock (b : RingBuffer) : RingBuffer := set_mu false b.

(** [b.mu.Lock(); defer b.mu.Unlock(); body]: the deferred call runs when
    the body returns and when it panics. *)
Definition locked {A} (body : M A) : M A :=
  fun b =>
    match Lock b with
    | (b1, Done _) => let '(b2, r) := body b1 in (Unlock b2, r)
    | (b1, Panicked p) => (b1, Panicked p)
    | (b1, Blocked) => (b1, Blocked)
    end.

End RingBuffer.

Arguments RingBuffer T : clear implicits.
Arguments M T A : clear implicits.

#[export] Instance M_ret {T} : MRet (M T) := @ret T.
#[export] Instance M_bind {T} : MBind (M T) := fun A B k m => @bind T A B m k.

Section Methods.

Context {T : Type} {T_size : Sizeof T}.
Variable zero : T.

(** [NewRingBuffer[T](cap)]: [make([]T, cap)] panics (makeslice: len out of
    range) on a negative length and on a length whose elements take more
    than [max_alloc] bytes; the other fields take their zero values. *)
Definition NewRingBuffer (cap : Z) : result (RingBuffer T) :=
  if (cap <? 0) || (max_alloc <? sizeof * cap) then Panicked MakeSliceLen
  else Done {| data := replicate (Z.to_nat cap) zero;
               capacity := cap;
               start := 0;
               size := 0;
               mu := false |}.

Definition Add (item : T) : M T unit :=
  locked (
    b ← get;
    idx ← eval (go_rem (start b +i size b) (capacity b));
    store idx item;;
    b ← get;
    if size b <? capacity b
    then assign (set_size (size b +i 1))
    else
      s ← eval (go_rem (start b +i 1) (capacity b));
      assign (set_start s)).

(** The three results are [zero], [result] and [ok]. *)
Definition Pop : M T (T * T * bool) :=
  locked (
    b ← get;
    if size b =? 0
    then mret (zero, zero, false)
    else
      result ← load (start b);
      store (start b) zero;;
      b ← get;
      s ← eval (go_rem (start b +i 1) (capacity b));
      assign (set_start s);;
      b ← get;
      assign (set_size (size b -i 1));;
      mret (zero, result, true)).

Definition Readd (item : T) : M T bool :=
  locked (
    b ← get;
    if size b =? capacity b
    then mret false
    else
      s ← eval (go_rem (start b -i 1 +i capacity b) (capacity b));
      assign (set_start s);;
      b ← get;
      store (start b) item;;
      b ← get;
      assign (set_size (size b +i 1));;
      mret true).

(** [Len] reads [b.size] directly; it has no [Lock]. *)
Definition Len : M T Z :=
  b ← get;
  mret (size b).

End Methods.

(** ** Callers, abstraction and invariants *)

Section Model.

Context {T : Type}.
Variable zero : T.

Inductive op : Type :=
| OpAdd (item : T)
| OpPop
| OpReadd (item : T).

(** The buffer after one call; a call that panics leaves the buffer as it
    was at the panic, with the mutex released. *)
Definition apply_op (o : op) (b : RingBuffer T) : RingBuffer T :=
  match o with
  | OpAdd item => fst (Add item b)
  | OpPop => fst (Pop zero b)
  | OpReadd item => fst (Readd item b)
  end.

Definition apply_ops (ops : list op) (b : RingBuffer T) : RingBuffer T :=
  fold_left (fun b o => apply_op o b) ops b.

(** [for _, x := range items { b.Add(x) }] *)
Fixpoint add_all (items : list T) : M T unit :=
  match items with
  | [] => mret tt
  | x :: rest => Add x;; add_all rest
  end.

(** [n] calls of [Pop], with the value and the flag of each. *)
Fixpoint pop_n (n : nat) : M T (list (T * bool)) :=
  match n with
  | O => mret []
  | S n' =>
      '(_, result, ok) ← Pop zero;
      rest ← pop_n n';
      mret ((result, ok) :: rest)
  end.

(** [Pop] until it reports an empty buffer; [fuel] bounds the number of
    calls. *)
Fixpoint drain (fuel : nat) : M T (list T) :=
  match fuel with
  | O => mret []
  | S fuel' =>
      '(_, result, ok) ← Pop zero;
      if ok : bool
      then rest ← drain fuel'; mret (result :: rest)
      else mret []
  end.

(** The slot of the [k]-th oldest element. *)
Definition slot_at (s c : Z) (k : nat) : nat :=
  Z.to_nat ((s + Z.of_nat k) mod c).

Definition slot (b : RingBuffer T) (k : nat) : nat :=
  slot_at (start b) (capacity b) k.

(** The queue a buffer holds, oldest element first. *)
Definition contents (b : RingBuffer T) : list T :=
  (fun k => default zero (data b !! slot b k)) <$> seq 0 (Z.to_nat (size b)).

(** [l] is the queue held in the circular range [start, start + size). *)
Definition reps (b : RingBuffer T) (l : list T) : Prop :=
  Z.of_nat (length l) = size b /\
  forall k, (k < length l)%nat -> data b !! slot b k = l !! k.

(** Slot [i] is in the circular range [start, start + size). *)
Definition live (b : RingBuffer T) (i : nat) : Prop :=
  exists k, Z.of_nat k < size b /\ slot b k = i.

(** Every slot outside the live range holds the zero value. *)
Definition cleared (b : RingBuffer T) : Prop :=
  forall i, (i < length (data b))%nat -> ~ live b i -> data b !! i = Some zero.

(** The shape of a buffer between two calls: the attributes of the data
    model, with the mutex free. *)
Record bounds (b : RingBuffer T) : Prop := mkBounds {
  bounds_capacity : 0 < capacity b <= max_int;
  bounds_data : Z.of_nat (length (data b)) = capacity b;
  bounds_start : 0 <= start b < capacity b;
  bounds_size : 0 <= size b <= capacity b;
  bounds_mu : mu b = false
}.

(** [size] stays between 0 and the capacity [c], which never changes. *)
Definition size_inv (c : Z) (b : RingBuffer T) : Prop :=
  capacity b = c /\ 0 <= size b <= c.

End Model.

Arguments op T : clear implicits.

(** ** Proof tools *)

Ltac fields := cbn [data capacity start size mu fst snd].

(** Case analysis on an innermost test or outcome of the goal. *)
Ltac case_inner :=
  match goal with
  | |- context [match ?t with _ => _ end] =>
      lazymatch t with
      | context [match _ with _ => _ end] => fail
      | _ => destruct t eqn:?; fields
      end
  end.

Ltac Z_tests :=
  repeat match goal with
         | H : (_ <? _) = true |- _ => apply Z.ltb_lt in H
         | H : (_ <? _) = false |- _ => apply Z.ltb_ge in H
         | H : (_ =? _) = true |- _ => apply Z.eqb_eq in H
         | H : (_ =? _) = false |- _ => apply Z.eqb_neq in H
         end.

Ltac run_method :=
  unfold locked, Lock, Unlock, mbind, M_bind, mret, M_ret, bind, ret, get,
    eval, assign, load, store, set_data, set_start, set_size, set_mu;
  fields.

Ltac int_range :=
  unfold GoInt.is_int, GoInt.min_int, GoInt.max_int in *; lia.

(** ** Integer and index arithmetic *)

Section Arithmetic.

Lemma wrap_id z : GoInt.is_int z -> GoInt.wrap z = z.
Proof.
  unfold GoInt.is_int, GoInt.min_int, GoInt.max_int, GoInt.wrap. intros H.
  rewrite Z.mod_small; lia.
Qed.

(** Index arithmetic without overflow agrees with arithmetic modulo the
    capacity. *)
Lemma go_rem_mod x c :
  0 < c -> 0 <= x <= max_int -> go_rem (GoInt.wrap x) c = Done (x mod c).
Proof.
  intros Hc Hx. unfold go_rem.
  rewrite wrap_id by int_range.
  destruct (Z.eqb_spec c 0) as [->|_]; [lia|].
  rewrite Z.rem_mod_nonneg by lia. reflexivity.
Qed.

Lemma in_range_true i len :
  0 <= i < len -> (0 <=? i) && (i <? len) = true.
Proof.
  intros H. apply andb_true_iff.
  split; [apply Z.leb_le|apply Z.ltb_lt]; lia.
Qed.

Lemma in_range_false i len :
  ~ (0 <= i < len) -> (0 <=? i) && (i <? len) = false.
Proof.
  intros H. apply andb_false_iff.
  destruct (Z.leb_spec 0 i); [right; apply Z.ltb_ge; lia | left; reflexivity].
Qed.

Lemma slot_at_lt s c k : 0 < c -> Z.of_nat (slot_at s c k) < c.
Proof.
  intros Hc. unfold slot_at.
  pose proof (Z.mod_pos_bound (s + Z.of_nat k) c Hc). lia.
Qed.

Lemma mod_offset_inj s c j k :
  0 < c -> 0 <= j < c -> 0 <= k < c ->
  (s + j) mod c = (s + k) mod c -> j = k.
Proof.
  intros Hc Hj Hk H.
  assert (Hd : (j - k) mod c = 0).
  { replace (j - k) with ((s + j) - (s + k)) by lia.
    rewrite Zminus_mod, H, Z.sub_diag. apply Z.mod_0_l. lia. }
  apply Z.mod_divide in Hd; [|lia].
  destruct Hd as [q Hq].
  assert (q = 0) by nia. lia.
Qed.

Lemma slot_at_inj s c j k :
  0 < c -> Z.of_nat j < c -> Z.of_nat k < c ->
  slot_at s c j = slot_at s c k -> j = k.
Proof.
  intros Hc Hj Hk H. unfold slot_at in H.
  pose proof (Z.mod_pos_bound (s + Z.of_nat j) c Hc).
  pose proof (Z.mod_pos_bound (s + Z.of_nat k) c Hc).
  apply Z2Nat.inj in H; [|lia|lia].
  apply mod_offset_inj in H; lia.
Qed.

Lemma slot_at_0 s c : 0 <= s < c -> slot_at s c 0 = Z.to_nat s.
Proof. intros H. unfold slot_at. rewrite Z.add_0_r, Z.mod_small; lia. Qed.

Lemma slot_at_succ s c k :
  0 < c -> slot_at ((s + 1) mod c) c k = slot_at s c (S k).
Proof.
  intros Hc. unfold slot_at. rewrite Zplus_mod_idemp_l.
  f_equal. f_equal. lia.
Qed.

Lemma slot_at_pred s c k :
  0 < c -> slot_at ((s - 1 + c) mod c) c (S k) = slot_at s c k.
Proof.
  intros Hc. unfold slot_at. rewrite Zplus_mod_idemp_l.
  replace (s - 1 + c + Z.of_nat (S k)) with (s + Z.of_nat k + 1 * c) by lia.
  rewrite Z.mod_add by lia. reflexivity.
Qed.

Lemma slot_at_pred_0 s c :
  0 < c -> slot_at ((s - 1 + c) mod c) c 0 = Z.to_nat ((s - 1 + c) mod c).
Proof.
  intros Hc. unfold slot_at. rewrite Z.add_0_r, Z.mod_mod; lia.
Qed.

Lemma slot_at_full s c :
  0 <= s < c -> slot_at s c (Z.to_nat c) = Z.to_nat s.
Proof.
  intros H. unfold slot_at. rewrite Z2Nat.id by lia.
  replace (s + c) with (s + 1 * c) by lia.
  rewrite Z.mod_add, Z.mod_small; lia.
Qed.

Lemma slot_at_surj s c i :
  0 < c -> Z.of_nat i < c ->
  exists k, Z.of_nat k < c /\ slot_at s c k = i.
Proof.
  intros Hc Hi.
  pose proof (Z.mod_pos_bound (Z.of_nat i - s) c Hc) as Hb.
  exists (Z.to_nat ((Z.of_nat i - s) mod c)). split; [lia|].
  unfold slot_at. rewrite Z2Nat.id by lia.
  rewrite Zplus_mod_idemp_r.
  replace (s + (Z.of_nat i - s)) with (Z.of_nat i) by lia.
  rewrite Z.mod_small by lia. lia.
Qed.

End Arithmetic.

(** ** One call on a well-shaped buffer *)

Section Shape.

Context {T : Type}.
Variable zero : T.

Lemma Add_not_full (x : T) (b : RingBuffer T) :
  bounds b -> size b < capacity b -> start b + size b <= max_int ->
  Add x b =
    (mkRingBuffer
       (<[slot b (Z.to_nat (size b)) := x]> (data b))
       (capacity b) (start b) (size b + 1) false,
     Done tt).
Proof.
  intros [Hc Hd Hs Hn Hm] Hlt Hov. destruct b as [d c s n m]; simpl in *. subst m.
  unfold Add, slot, slot_at. run_method. unfold GoInt.add.
  rewrite Z2Nat.id by lia.
  rewrite go_rem_mod by lia.
  pose proof (Z.mod_pos_bound (s + n) c ltac:(lia)) as Hi.
  rewrite in_range_true by lia. fields.
  destruct (Z.ltb_spec n c); [|lia]. fields.
  rewrite wrap_id by int_range.
  reflexivity.
Qed.

Lemma Add_full (x : T) (b : RingBuffer T) :
  bounds b -> size b = capacity b -> start b + size b <= max_int ->
  Add x b =
    (mkRingBuffer
       (<[Z.to_nat (start b) := x]> (data b))
       (capacity b) ((start b + 1) mod capacity b) (size b) false,
     Done tt).
Proof.
  intros [Hc Hd Hs Hn Hm] Heq Hov. destruct b as [d c s n m]; simpl in *. subst m n.
  unfold Add. run_method. unfold GoInt.add.
  rewrite go_rem_mod by lia.
  replace ((s + c) mod c) with s
    by (rewrite <- (Z.mul_1_l c) at 1; rewrite Z.mod_add, Z.mod_small; lia).
  rewrite in_range_true by lia. fields.
  destruct (Z.ltb_spec c c); [lia|]. fields.
  rewrite go_rem_mod by lia. reflexivity.
Qed.

Lemma Pop_nonempty (b : RingBuffer T) :
  bounds b -> 0 < size b ->
  exists v,
    data b !! Z.to_nat (start b) = Some v /\
    Pop zero b =
      (mkRingBuffer
         (<[Z.to_nat (start b) := zero]> (data b))
         (capacity b) ((start b + 1) mod capacity b) (size b - 1) false,
       Done (zero, v, true)).
Proof.
  intros [Hc Hd Hs Hn Hm] Hpos. destruct b as [d c s n m]; simpl in *. subst m.
  destruct (lookup_lt_is_Some_2 d (Z.to_nat s) ltac:(lia)) as [v Hv].
  exists v. split; [exact Hv|].
  unfold Pop. run_method.
  destruct (Z.eqb_spec n 0); [lia|]. fields.
  rewrite in_range_true by lia. rewrite Hv.
  fields. rewrite in_range_true by lia. fields.
  unfold GoInt.add, GoInt.sub. rewrite go_rem_mod by lia. fields.
  rewrite wrap_id by int_range.
  reflexivity.
Qed.

Lemma Readd_not_full (x : T) (b : RingBuffer T) :
  bounds b -> size b < capacity b -> start b - 1 + capacity b <= max_int ->
  Readd x b =
    (mkRingBuffer
       (<[Z.to_nat ((start b - 1 + capacity b) mod capacity b) := x]> (data b))
       (capacity b) ((start b - 1 + capacity b) mod capacity b)
       (size b + 1) false,
     Done true).
Proof.
  intros [Hc Hd Hs Hn Hm] Hlt Hov. destruct b as [d c s n m]; simpl in *. subst m.
  unfold Readd. run_method.
  destruct (Z.eqb_spec n c); [lia|]. fields.
  unfold GoInt.add, GoInt.sub.
  rewrite (wrap_id (s - 1)) by int_range.
  rewrite go_rem_mod by lia. fields.
  pose proof (Z.mod_pos_bound (s - 1 + c) c ltac:(lia)) as Hi.
  rewrite in_range_true by lia. fields.
  rewrite wrap_id by int_range.
  reflexivity.
Qed.

End Shape.

(** ** The queue held by a buffer *)

Section Abstraction.

Context {T : Type} {T_size : Sizeof T}.
Variable zero : T.

(** What [NewRingBuffer] returns, when it returns. *)
Lemma NewRingBuffer_Done c (b : RingBuffer T) :
  NewRingBuffer zero c = Done b ->
  0 <= c /\ sizeof * c <= max_alloc /\
  b = mkRingBuffer (replicate (Z.to_nat c) zero) c 0 0 false.
Proof.
  unfold NewRingBuffer.
  destruct (Z.ltb_spec c 0); [discriminate|].
  destruct (Z.ltb_spec max_alloc (sizeof * c)); [discriminate|].
  intros [= <-]. split_and!; [lia|lia|reflexivity].
Qed.

Lemma NewRingBuffer_bounds c (b : RingBuffer T) :
  0 < c <= max_int -> NewRingBuffer zero c = Done b ->
  bounds b /\ capacity b = c /\ start b = 0 /\ size b = 0 /\
  data b = replicate (Z.to_nat c) zero.
Proof.
  intros Hc Hnew. destruct (NewRingBuffer_Done c b Hnew) as (_ & _ & ->).
  fields. repeat split; fields; try lia.
  rewrite length_replicate. lia.
Qed.

Lemma reps_empty (b : RingBuffer T) : size b = 0 -> reps b [].
Proof. intros H. split; simpl; [lia|]. intros k Hk. lia. Qed.

Lemma reps_length (b : RingBuffer T) l :
  reps b l -> Z.of_nat (length l) = size b.
Proof. intros [H _]. exact H. Qed.

Lemma Add_not_full_spec (x : T) (b : RingBuffer T) l :
  bounds b -> reps b l ->
  size b < capacity b -> start b + size b <= max_int ->
  exists b',
    Add x b = (b', Done tt) /\ bounds b' /\
    capacity b' = capacity b /\ start b' = start b /\
    reps b' (l ++ [x]).
Proof.
  intros Hb [Hlen Hl] Hlt Hov.
  eexists. split; [apply Add_not_full; assumption|].
  destruct Hb as [Hc Hd Hs Hn Hm]. destruct b as [d c s n m].
  unfold slot in *. simpl in *.
  assert (Hk : Z.to_nat n = length l) by lia.
  pose proof (slot_at_lt s c (length l) ltac:(lia)) as Hslot.
  split; [|split; [reflexivity|split; [reflexivity|]]].
  - constructor; fields; try lia. rewrite length_insert. lia.
  - split; fields.
    + rewrite length_app. simpl. lia.
    + intros k Hklt. rewrite length_app in Hklt. simpl in Hklt.
      rewrite Hk. unfold slot. fields.
      destruct (decide (k = length l)) as [->|Hne].
      * rewrite list_lookup_insert_eq by lia.
        rewrite lookup_app_r by lia. rewrite Nat.sub_diag. reflexivity.
      * rewrite list_lookup_insert_ne
          by (intros Heq; apply slot_at_inj in Heq; lia).
        rewrite lookup_app_l by lia. apply Hl. lia.
Qed.

Lemma Add_full_spec (x : T) (b : RingBuffer T) l :
  bounds b -> reps b l ->
  size b = capacity b -> start b + size b <= max_int ->
  exists b',
    Add x b = (b', Done tt) /\ bounds b' /\
    capacity b' = capacity b /\
    start b' = (start b + 1) mod capacity b /\
    reps b' (drop 1 l ++ [x]).
Proof.
  intros Hb [Hlen Hl] Hfull Hov.
  eexists. split; [apply Add_full; assumption|].
  destruct Hb as [Hc Hd Hs Hn Hm]. destruct b as [d c s n m].
  unfold slot in *. simpl in *. subst n.
  pose proof (Z.mod_pos_bound (s + 1) c ltac:(lia)) as Hs'.
  split; [|split; [reflexivity|split; [reflexivity|]]].
  - constructor; fields; try lia. rewrite length_insert. lia.
  - split; fields.
    + rewrite length_app, length_drop. simpl. lia.
    + intros k Hklt. rewrite length_app, length_drop in Hklt. simpl in Hklt.
      unfold slot. fields. rewrite slot_at_succ by lia.
      destruct (decide (S k = length l)) as [Heq|Hne].
      * rewrite Heq. replace (length l) with (Z.to_nat c) at 1 by lia.
        rewrite slot_at_full by lia.
        rewrite list_lookup_insert_eq by lia.
        rewrite lookup_app_r by (rewrite length_drop; lia).
        rewrite length_drop.
        replace (k - (length l - 1))%nat with 0%nat by lia. reflexivity.
      * rewrite <- (slot_at_0 s c) by lia.
        rewrite list_lookup_insert_ne
          by (intros Heq; apply slot_at_inj in Heq; lia).
        rewrite lookup_app_l by (rewrite length_drop; lia).
        rewrite lookup_drop. apply Hl. lia.
Qed.

Lemma Pop_spec (b : RingBuffer T) v l :
  bounds b -> reps b (v :: l) ->
  exists b',
    Pop zero b = (b', Done (zero, v, true)) /\ bounds b' /\
    capacity b' = capacity b /\
    start b' = (start b + 1) mod capacity b /\
    reps b' l.
Proof.
  intros Hb [Hlen Hl].
  assert (Hpos : 0 < size b) by (simpl in Hlen; lia).
  destruct (Pop_nonempty zero b Hb Hpos) as (v' & Hv' & HPop).
  assert (v' = v) as ->.
  { specialize (Hl 0%nat ltac:(simpl; lia)). unfold slot in Hl.
    rewrite slot_at_0 in Hl by apply Hb. simpl in Hl. congruence. }
  eexists. split; [exact HPop|].
  destruct Hb as [Hc Hd Hs Hn Hm]. destruct b as [d c s n m].
  unfold slot in *. simpl in *.
  pose proof (Z.mod_pos_bound (s + 1) c ltac:(lia)) as Hs'.
  split; [|split; [reflexivity|split; [reflexivity|]]].
  - constructor; fields; try lia. rewrite length_insert. lia.
  - split; fields; [lia|].
    intros k Hklt. unfold slot. fields. rewrite slot_at_succ by lia.
    rewrite <- (slot_at_0 s c) by lia.
    rewrite list_lookup_insert_ne
      by (intros Heq; apply slot_at_inj in Heq; lia).
    apply (Hl (S k)). lia.
Qed.

Lemma Readd_spec (x : T) (b : RingBuffer T) l :
  bounds b -> reps b l ->
  size b < capacity b -> start b - 1 + capacity b <= max_int ->
  exists b',
    Readd x b = (b', Done true) /\ bounds b' /\
    capacity b' = capacity b /\
    start b' = (start b - 1 + capacity b) mod capacity b /\
    size b' = size b + 1 /\
    data b' !! Z.to_nat (start b') = Some x /\
    reps b' (x :: l).
Proof.
  intros Hb [Hlen Hl] Hlt Hov.
  eexists. split; [apply Readd_not_full; assumption|].
  destruct Hb as [Hc Hd Hs Hn Hm]. destruct b as [d c s n m].
  unfold slot in *. simpl in *.
  pose proof (Z.mod_pos_bound (s - 1 + c) c ltac:(lia)) as Hs'.
  split; [|split; [reflexivity|split; [reflexivity|split; [reflexivity|split]]]].
  - constructor; fields; try lia. rewrite length_insert. lia.
  - rewrite list_lookup_insert_eq by lia. reflexivity.
  - split; fields; [simpl; lia|].
    intros k Hklt. simpl in Hklt. unfold slot. fields.
    destruct k as [|k].
    + rewrite slot_at_pred_0 by lia.
      rewrite list_lookup_insert_eq by lia. reflexivity.
    + rewrite <- (slot_at_pred_0 s c) at 1 by lia.
      rewrite list_lookup_insert_ne
        by (intros Heq; apply slot_at_inj in Heq; lia).
      rewrite slot_at_pred by lia. simpl. apply Hl. lia.
Qed.

Lemma Pop_empty_spec (b : RingBuffer T) :
  mu b = false -> size b = 0 -> Pop zero b = (b, Done (zero, zero, false)).
Proof.
  intros Hm Hn. destruct b as [d c s n m]. simpl in *. subst.
  unfold Pop. run_method. reflexivity.
Qed.

End Abstraction.

(** ** Loops of calls *)

Section Loops.

Context {T : Type}.
Variable zero : T.

Lemma add_all_app (l1 l2 : list T) (b : RingBuffer T) :
  add_all (l1 ++ l2) b = (add_all l1;; add_all l2) b.
Proof.
  revert b. induction l1 as [|x l1 IH]; intros b.
  - reflexivity.
  - simpl. unfold mbind, M_bind, bind in *.
    destruct (Add x b) as [b1 [[]| |]]; try reflexivity. apply IH.
Qed.

(** Adding to a buffer with room for all the items evicts nothing. *)
Lemma add_all_no_evict (items : list T) (b : RingBuffer T) l :
  bounds b -> reps b l ->
  size b + Z.of_nat (length items) <= capacity b ->
  start b + capacity b <= max_int + 1 ->
  exists b',
    add_all items b = (b', Done tt) /\ bounds b' /\
    capacity b' = capacity b /\ start b' = start b /\
    reps b' (l ++ items).
Proof.
  revert b l. induction items as [|x items IH]; intros b l Hb Hl Hroom Hov.
  - exists b. rewrite app_nil_r. split_and!; try assumption; reflexivity.
  - simpl in Hroom.
    destruct (Add_not_full_spec x b l Hb Hl) as (b1 & HAdd & Hb1 & Hc1 & Hs1 & Hl1);
      [lia|lia|].
    destruct (IH b1 (l ++ [x]) Hb1 Hl1) as (b' & Hall & Hb' & Hc' & Hs' & Hl').
    { pose proof (reps_length b1 _ Hl1) as H1.
      pose proof (reps_length b l Hl) as H0.
      rewrite length_app in H1. simpl in H1. lia. }
    { rewrite Hs1, Hc1. exact Hov. }
    exists b'. simpl. unfold mbind, M_bind, bind. rewrite HAdd.
    rewrite <- app_assoc in Hl'.
    split_and!; try assumption; try congruence.
Qed.

(** Adding any number of items keeps the newest ones that fit. *)
Lemma add_all_spec (items : list T) (b : RingBuffer T) l :
  bounds b -> reps b l ->
  2 * capacity b <= max_int + 1 ->
  exists b',
    add_all items b = (b', Done tt) /\ bounds b' /\
    capacity b' = capacity b /\
    reps b'
      (drop (length (l ++ items) - Z.to_nat (capacity b)) (l ++ items)).
Proof.
  revert b l. induction items as [|x items IH]; intros b l Hb Hl Hov.
  - exists b. rewrite app_nil_r.
    replace (length l - Z.to_nat (capacity b))%nat with 0%nat
      by (pose proof (reps_length b l Hl); pose proof (bounds_size b Hb); lia).
    split_and!; try assumption; reflexivity.
  - pose proof (bounds_start b Hb) as Hs. pose proof (bounds_size b Hb) as Hn.
    pose proof (reps_length b l Hl) as Hlen.
    destruct (Z.lt_ge_cases (size b) (capacity b)) as [Hlt|Hge].
    + destruct (Add_not_full_spec x b l Hb Hl) as (b1 & HAdd & Hb1 & Hc1 & Hs1 & Hl1);
        [lia|lia|].
      destruct (IH b1 (l ++ [x]) Hb1 Hl1) as (b' & Hall & Hb' & Hc' & Hl');
        [lia|].
      exists b'. simpl. unfold mbind, M_bind, bind. rewrite HAdd.
      rewrite <- app_assoc, Hc1 in Hl'.
      split_and!; try assumption; try congruence.
    + destruct (Add_full_spec x b l Hb Hl) as (b1 & HAdd & Hb1 & Hc1 & Hs1 & Hl1);
        [lia|lia|].
      destruct (IH b1 (drop 1 l ++ [x]) Hb1 Hl1) as (b' & Hall & Hb' & Hc' & Hl');
        [lia|].
      exists b'. simpl. unfold mbind, M_bind, bind. rewrite HAdd.
      rewrite <- app_assoc, Hc1 in Hl'.
      pose proof (bounds_capacity b Hb) as Hc.
      destruct l as [|a l]; [simpl in Hlen; lia|].
      simpl in Hlen. simpl in Hl'.
      replace (length ((a :: l) ++ x :: items) - Z.to_nat (capacity b))%nat
        with (S (length (l ++ x :: items) - Z.to_nat (capacity b)))
        by (simpl; rewrite !length_app; simpl; lia).
      simpl. split_and!; try assumption; try congruence.
Qed.

(** Adding items keeps the newest ones that fit, for every capacity, as long
    as [start + size] plus the number of items stays within [int]: from a
    new buffer, as long as the number of calls does. *)
Lemma add_all_within_int (items : list T) (b : RingBuffer T) l :
  bounds b -> reps b l ->
  start b + size b + Z.of_nat (length items) <= max_int + 1 ->
  exists b',
    add_all items b = (b', Done tt) /\ bounds b' /\
    capacity b' = capacity b /\
    reps b'
      (drop (length (l ++ items) - Z.to_nat (capacity b)) (l ++ items)).
Proof.
  revert b l. induction items as [|x items IH]; intros b l Hb Hl Hov.
  - exists b. rewrite app_nil_r.
    replace (length l - Z.to_nat (capacity b))%nat with 0%nat
      by (pose proof (reps_length b l Hl); pose proof (bounds_size b Hb); lia).
    split_and!; try assumption; reflexivity.
  - pose proof (bounds_start b Hb) as Hs. pose proof (bounds_size b Hb) as Hn.
    pose proof (bounds_capacity b Hb) as Hc.
    pose proof (reps_length b l Hl) as Hlen.
    simpl in Hov.
    destruct (Z.lt_ge_cases (size b) (capacity b)) as [Hlt|Hge].
    + destruct (Add_not_full_spec x b l Hb Hl) as (b1 & HAdd & Hb1 & Hc1 & Hs1 & Hl1);
        [lia|lia|].
      pose proof (reps_length b1 _ Hl1) as Hlen1.
      rewrite length_app in Hlen1. simpl in Hlen1.
      destruct (IH b1 (l ++ [x]) Hb1 Hl1) as (b' & Hall & Hb' & Hc' & Hl');
        [lia|].
      exists b'. simpl. unfold mbind, M_bind, bind. rewrite HAdd.
      rewrite <- app_assoc, Hc1 in Hl'.
      split_and!; try assumption; try congruence.
    + destruct (Add_full_spec x b l Hb Hl) as (b1 & HAdd & Hb1 & Hc1 & Hs1 & Hl1);
        [lia|lia|].
      pose proof (reps_length b1 _ Hl1) as Hlen1.
      rewrite length_app, length_drop in Hlen1. simpl in Hlen1.
      pose proof (Z.mod_le (start b + 1) (capacity b) ltac:(lia) ltac:(lia)) as Hle.
      destruct (IH b1 (drop 1 l ++ [x]) Hb1 Hl1) as (b' & Hall & Hb' & Hc' & Hl');
        [lia|].
      exists b'. simpl. unfold mbind, M_bind, bind. rewrite HAdd.
      rewrite <- app_assoc, Hc1 in Hl'.
      destruct l as [|a l]; [simpl in Hlen; lia|].
      simpl in Hlen. simpl in Hl'.
      replace (length ((a :: l) ++ x :: items) - Z.to_nat (capacity b))%nat
        with (S (length (l ++ x :: items) - Z.to_nat (capacity b)))
        by (simpl; rewrite !length_app; simpl; lia).
      simpl. split_and!; try assumption; try congruence.
Qed.

Lemma pop_n_spec (n : nat) (b : RingBuffer T) l :
  bounds b -> reps b l -> (n <= length l)%nat ->
  exists b',
    pop_n zero n b = (b', Done ((fun v => (v, true)) <$> take n l)) /\
    bounds b' /\ capacity b' = capacity b /\ reps b' (drop n l).
Proof.
  revert b l. induction n as [|n IH]; intros b l Hb Hl Hn.
  - exists b. rewrite drop_0. split_and!; try assumption; reflexivity.
  - destruct l as [|v l]; [simpl in Hn; lia|]. simpl in Hn.
    destruct (Pop_spec zero b v l Hb Hl) as (b1 & HPop & Hb1 & Hc1 & _ & Hl1).
    destruct (IH b1 l Hb1 Hl1 ltac:(lia)) as (b' & Hpops & Hb' & Hc' & Hl').
    exists b'. simpl. unfold mbind, M_bind, bind. rewrite HPop.
    rewrite Hpops.
    split_and!; try assumption; try congruence; reflexivity.
Qed.

Lemma drain_spec (fuel : nat) (b : RingBuffer T) l :
  bounds b -> reps b l -> (length l < fuel)%nat ->
  exists b',
    drain zero fuel b = (b', Done l) /\ bounds b' /\
    capacity b' = capacity b /\ size b' = 0.
Proof.
  revert b l. induction fuel as [|fuel IH]; intros b l Hb Hl Hfuel; [lia|].
  destruct l as [|v l].
  - exists b. simpl. unfold mbind, M_bind, bind.
    pose proof (reps_length b _ Hl) as Hlen. simpl in Hlen.
    rewrite Pop_empty_spec by (try apply Hb; lia).
    split_and!; try assumption; try reflexivity; lia.
  - simpl in Hfuel.
    destruct (Pop_spec zero b v l Hb Hl) as (b1 & HPop & Hb1 & Hc1 & _ & Hl1).
    destruct (IH b1 l Hb1 Hl1 ltac:(lia)) as (b' & Hdrain & Hb' & Hc' & Hn').
    exists b'. simpl. unfold mbind, M_bind, bind. rewrite HPop.
    rewrite Hdrain.
    split_and!; try assumption; try congruence; reflexivity.
Qed.

End Loops.

(** ** Invariants *)

Section Invariants.

Context {T : Type} {T_size : Sizeof T}.
Variable zero : T.

Lemma apply_op_size_inv c (o : op T) (b : RingBuffer T) :
  c <= max_int -> size_inv c b -> size_inv c (apply_op zero o b).
Proof.
  intros Hc [Hcap Hn]. destruct b as [d c' s n m]. simpl in *. subst c'.
  assert (Hup : n < c -> n +i 1 = n + 1)
    by (intros; apply wrap_id; int_range).
  assert (Hdown : n <> 0 -> n -i 1 = n - 1)
    by (intros; apply wrap_id; int_range).
  unfold size_inv.
  destruct o as [x| |x]; unfold apply_op, Add, Pop, Readd; run_method;
    destruct m; fields; try (split; [reflexivity|lia]);
    repeat case_inner; Z_tests;
    try rewrite Hup by lia; try rewrite Hdown by lia;
    (split; [reflexivity|lia]).
Qed.

Lemma apply_ops_size_inv c (ops : list (op T)) (b : RingBuffer T) :
  c <= max_int -> size_inv c b -> size_inv c (apply_ops zero ops b).
Proof.
  intros Hc. revert b. induction ops as [|o ops IH]; intros b Hb; simpl.
  - exact Hb.
  - apply IH. apply apply_op_size_inv; assumption.
Qed.

Lemma NewRingBuffer_size_inv c (b : RingBuffer T) :
  0 <= c -> NewRingBuffer zero c = Done b -> size_inv c b.
Proof.
  intros Hc Hnew. destruct (NewRingBuffer_Done zero c b Hnew) as (_ & _ & ->).
  unfold size_inv. simpl. lia.
Qed.

(** A call that returns leaves a well-shaped buffer well-shaped, whatever
    the capacity. *)
Lemma returned_bounds (o : op T) (b : RingBuffer T) :
  bounds b ->
  (match o with
   | OpAdd x => exists r, snd (Add x b) = Done r
   | OpPop => exists r, snd (Pop zero b) = Done r
   | OpReadd x => exists r, snd (Readd x b) = Done r
   end) ->
  bounds (apply_op zero o b) /\ capacity (apply_op zero o b) = capacity b.
Proof.
  intros [Hc Hd Hs Hn Hm]. destruct b as [d c s n m]. simpl in *. subst m.
  assert (Hup : n < c -> n +i 1 = n + 1)
    by (intros; apply wrap_id; int_range).
  assert (Hdown : n <> 0 -> n -i 1 = n - 1)
    by (intros; apply wrap_id; int_range).
  assert (Hnext : go_rem (s +i 1) c = Done ((s + 1) mod c))
    by (apply go_rem_mod; lia).
  pose proof (Z.mod_pos_bound (s + 1) c ltac:(lia)) as Hs'.
  destruct o as [x| |x]; unfold apply_op, Add, Pop, Readd; run_method;
    rewrite ?Hnext; fields;
    repeat case_inner; fields; intros [r Hr]; try discriminate Hr;
    Z_tests;
    repeat match goal with
           | H : _ && _ = true |- _ => apply andb_true_iff in H; destruct H
           | H : (_ <=? _) = true |- _ => apply Z.leb_le in H
           end;
    Z_tests;
    try rewrite Hup by lia; try rewrite Hdown by lia;
    try (injection Hnext as ->);
    (split; [|reflexivity]); constructor; fields;
    rewrite ?length_insert; try lia; try reflexivity.
Qed.

Lemma NewRingBuffer_cleared c (b : RingBuffer T) :
  0 <= c -> NewRingBuffer zero c = Done b -> cleared zero b.
Proof.
  intros Hc Hnew. destruct (NewRingBuffer_Done zero c b Hnew) as (_ & _ & ->).
  intros i Hi _. fields. simpl in Hi.
  rewrite length_replicate in Hi. apply lookup_replicate_2. exact Hi.
Qed.

Lemma cleared_Add_not_full (x : T) (b : RingBuffer T) :
  bounds b -> cleared zero b -> size b < capacity b ->
  cleared zero
    (mkRingBuffer
       (<[slot b (Z.to_nat (size b)) := x]> (data b))
       (capacity b) (start b) (size b + 1) false).
Proof.
  intros [Hc Hd Hs Hn Hm] Hcl Hlt i Hi Hdead.
  destruct b as [d c s n m]. unfold cleared, live, slot in *. simpl in *.
  rewrite length_insert in Hi.
  rewrite list_lookup_insert_ne.
  - apply Hcl; [exact Hi|]. intros (k & Hk & Hslot).
    apply Hdead. exists k. split; [lia|exact Hslot].
  - intros Heq. apply Hdead. exists (Z.to_nat n). split; [lia|exact Heq].
Qed.

Lemma cleared_full (b : RingBuffer T) :
  bounds b -> size b = capacity b -> cleared zero b.
Proof.
  intros [Hc Hd Hs Hn Hm] Hfull i Hi Hdead. exfalso. apply Hdead.
  destruct (slot_at_surj (start b) (capacity b) i) as (k & Hk & Hslot);
    [lia|lia|].
  exists k. split; [lia|exact Hslot].
Qed.

Lemma cleared_Pop (b : RingBuffer T) :
  bounds b -> cleared zero b -> 0 < size b ->
  cleared zero
    (mkRingBuffer
       (<[Z.to_nat (start b) := zero]> (data b))
       (capacity b) ((start b + 1) mod capacity b) (size b - 1) false).
Proof.
  intros [Hc Hd Hs Hn Hm] Hcl Hpos i Hi Hdead.
  destruct b as [d c s n m]. unfold cleared, live, slot in *. simpl in *.
  rewrite length_insert in Hi.
  destruct (decide (i = Z.to_nat s)) as [->|Hne].
  - apply list_lookup_insert_eq. exact Hi.
  - rewrite list_lookup_insert_ne by congruence.
    apply Hcl; [exact Hi|]. intros (k & Hk & Hslot).
    destruct k as [|k].
    + rewrite slot_at_0 in Hslot by lia. congruence.
    + apply Hdead. exists k. split; [lia|].
      rewrite slot_at_succ by lia. exact Hslot.
Qed.

Lemma cleared_Readd (x : T) (b : RingBuffer T) :
  bounds b -> cleared zero b -> size b < capacity b ->
  cleared zero
    (mkRingBuffer
       (<[Z.to_nat ((start b - 1 + capacity b) mod capacity b) := x]> (data b))
       (capacity b) ((start b - 1 + capacity b) mod capacity b)
       (size b + 1) false).
Proof.
  intros [Hc Hd Hs Hn Hm] Hcl Hlt i Hi Hdead.
  destruct b as [d c s n m]. unfold cleared, live, slot in *. simpl in *.
  rewrite length_insert in Hi.
  rewrite list_lookup_insert_ne.
  - apply Hcl; [exact Hi|]. intros (k & Hk & Hslot).
    apply Hdead. exists (S k). split; [lia|].
    rewrite slot_at_pred by lia. exact Hslot.
  - intros Heq. apply Hdead. exists 0%nat. split; [lia|].
    rewrite slot_at_pred_0 by lia. exact Heq.
Qed.

End Invariants.

(** ** Calls below the overflow threshold

    With [2 * capacity <= max_int + 1] no index expression overflows: no
    call panics, and every call keeps the buffer well-shaped and its dead
    slots cleared. *)

Section BelowOverflow.

Context {T : Type} {T_size : Sizeof T}.
Variable zero : T.

Lemma Readd_full_spec (x : T) (b : RingBuffer T) :
  mu b = false -> size b = capacity b -> Readd x b = (b, Done false).
Proof.
  intros Hm Hn. destruct b as [d c s n m]. simpl in *. subst.
  unfold Readd. run_method. rewrite Z.eqb_refl. reflexivity.
Qed.

Lemma reps_contents (b : RingBuffer T) : bounds b -> reps b (contents zero b).
Proof.
  intros [Hc Hd Hs Hn Hm]. unfold reps, contents.
  rewrite length_fmap, length_seq. split; [lia|].
  intros k Hk. rewrite list_lookup_fmap, lookup_seq_lt by exact Hk. simpl.
  pose proof (slot_at_lt (start b) (capacity b) k ltac:(lia)) as Hslot.
  destruct (lookup_lt_is_Some_2 (data b) (slot b k)) as [y Hy];
    [unfold slot; lia|].
  rewrite Hy. reflexivity.
Qed.

Lemma reps_inj (b : RingBuffer T) l1 l2 : reps b l1 -> reps b l2 -> l1 = l2.
Proof.
  intros [Hlen1 Hl1] [Hlen2 Hl2]. apply list_eq. intros i.
  destruct (Nat.lt_ge_cases i (length l1)) as [Hi|Hi].
  - rewrite <- Hl1, <- Hl2 by lia. reflexivity.
  - rewrite !lookup_ge_None_2 by lia. reflexivity.
Qed.

Lemma apply_op_wf (o : op T) (b : RingBuffer T) :
  2 * capacity b <= max_int + 1 -> bounds b -> cleared zero b ->
  bounds (apply_op zero o b) /\ cleared zero (apply_op zero o b) /\
  capacity (apply_op zero o b) = capacity b.
Proof.
  intros Hov Hb Hcl.
  pose proof (bounds_start b Hb) as Hs. pose proof (bounds_size b Hb) as Hn.
  assert (Hret : bounds (apply_op zero o b) /\
                 capacity (apply_op zero o b) = capacity b ->
                 cleared zero (apply_op zero o b) ->
                 bounds (apply_op zero o b) /\
                 cleared zero (apply_op zero o b) /\
                 capacity (apply_op zero o b) = capacity b) by tauto.
  destruct o as [x| |x].
  - destruct (Z.lt_ge_cases (size b) (capacity b)) as [Hlt|Hge].
    + pose proof (Add_not_full x b Hb Hlt ltac:(lia)) as HAdd.
      apply Hret.
      * apply returned_bounds; [exact Hb|]. rewrite HAdd. eexists; reflexivity.
      * unfold apply_op. rewrite HAdd. apply cleared_Add_not_full; assumption.
    + pose proof (Add_full x b Hb ltac:(lia) ltac:(lia)) as HAdd.
      assert (Hb' : bounds (apply_op zero (OpAdd x) b) /\
                    capacity (apply_op zero (OpAdd x) b) = capacity b).
      { apply returned_bounds; [exact Hb|]. rewrite HAdd. eexists; reflexivity. }
      apply Hret; [exact Hb'|].
      apply cleared_full; [apply Hb'|].
      unfold apply_op. rewrite HAdd. fields. lia.
  - destruct (Z.eq_dec (size b) 0) as [Hz|Hnz].
    + unfold apply_op. rewrite Pop_empty_spec by (try apply Hb; assumption).
      fields. tauto.
    + destruct (Pop_nonempty zero b Hb ltac:(lia)) as (v & Hv & HPop).
      apply Hret.
      * apply returned_bounds; [exact Hb|]. rewrite HPop. eexists; reflexivity.
      * unfold apply_op. rewrite HPop. apply cleared_Pop; [assumption..|lia].
  - destruct (Z.eq_dec (size b) (capacity b)) as [Hfull|Hnf].
    + unfold apply_op. rewrite Readd_full_spec by (try apply Hb; assumption).
      fields. tauto.
    + pose proof (Readd_not_full x b Hb ltac:(lia) ltac:(lia)) as HReadd.
      apply Hret.
      * apply returned_bounds; [exact Hb|]. rewrite HReadd. eexists; reflexivity.
      * unfold apply_op. rewrite HReadd. apply cleared_Readd; [assumption..|lia].
Qed.

Lemma apply_ops_wf (ops : list (op T)) (b : RingBuffer T) :
  2 * capacity b <= max_int + 1 -> bounds b -> cleared zero b ->
  bounds (apply_ops zero ops b) /\ cleared zero (apply_ops zero ops b) /\
  capacity (apply_ops zero ops b) = capacity b.
Proof.
  revert b. induction ops as [|o ops IH]; intros b Hov Hb Hcl; simpl.
  - tauto.
  - destruct (apply_op_wf o b Hov Hb Hcl) as (Hb1 & Hcl1 & Hc1).
    destruct (IH (apply_op zero o b)) as (Hb' & Hcl' & Hc');
      [rewrite Hc1; exact Hov|assumption..|].
    split_and!; try assumption. congruence.
Qed.

(** Below the threshold every state reached from a new buffer is
    well-shaped, with its dead slots cleared. *)
Lemma reached_wf c (b0 : RingBuffer T) (ops : list (op T)) :
  0 < c -> 2 * c <= max_int + 1 -> NewRingBuffer zero c = Done b0 ->
  bounds (apply_ops zero ops b0) /\ cleared zero (apply_ops zero ops b0) /\
  capacity (apply_ops zero ops b0) = c.
Proof.
  intros Hc Hov Hnew.
  destruct (NewRingBuffer_bounds zero c b0 ltac:(lia) Hnew)
    as (Hb0 & Hc0 & _).
  pose proof (NewRingBuffer_cleared zero c b0 ltac:(lia) Hnew) as Hcl0.
  destruct (apply_ops_wf ops b0 ltac:(lia) Hb0 Hcl0) as (Hb & Hcl & Hcap).
  split_and!; try assumption. congruence.
Qed.

Lemma pop_back_start s c :
  0 <= s < c -> ((s + 1) mod c - 1 + c) mod c = s.
Proof.
  intros H. destruct (Z.eq_dec (s + 1) c) as [Heq|Hne].
  - rewrite Heq, Z.mod_same by lia. rewrite Z.mod_small; lia.
  - rewrite (Z.mod_small (s + 1)) by lia.
    replace (s + 1 - 1 + c) with (s + 1 * c) by lia.
    rewrite Z.mod_add, Z.mod_small; lia.
Qed.

(** Below the threshold, [Readd] of the value just popped restores the
    buffer exactly: [Len] is what it was and the next [Pop] returns the
    same value. *)
Lemma Pop_Readd_restores (b : RingBuffer T) :
  bounds b -> 0 < size b < capacity b ->
  2 * capacity b <= max_int + 1 ->
  exists v b1,
    Pop zero b = (b1, Done (zero, v, true)) /\
    Readd v b1 = (b, Done true) /\
    Len (fst (Readd v b1)) = (b, Done (size b)) /\
    Pop zero (fst (Readd v b1)) = (b1, Done (zero, v, true)).
Proof.
  intros Hb Hn Hov.
  destruct (Pop_nonempty zero b Hb ltac:(lia)) as (v & Hv & HPop).
  exists v. eexists. split; [exact HPop|].
  match goal with
  | |- ?P /\ _ => assert (HReadd : P); [|rewrite HReadd; split_and!; try reflexivity; exact HPop]
  end.
  assert (Hb1 : bounds (apply_op zero OpPop b)).
  { apply returned_bounds; [exact Hb|]. rewrite HPop. eexists; reflexivity. }
  unfold apply_op in Hb1. rewrite HPop in Hb1. cbn [fst] in Hb1.
  pose proof (bounds_start _ Hb1) as Hs1. cbn [start capacity] in Hs1.
  rewrite Readd_not_full; [|exact Hb1|fields; lia|fields; lia].
  fields. destruct Hb as [Hc Hd Hs Hsz Hm]. destruct b as [d c s n m].
  simpl in *. subst m.
  rewrite pop_back_start by lia.
  rewrite list_insert_insert_eq, list_insert_id by exact Hv.
  do 2 f_equal. lia.
Qed.

(** Below the threshold, [Readd] on a buffer that is not full succeeds for
    any value, puts it at the front, and the next [Pop] returns it. *)
Lemma Readd_front (x : T) (b : RingBuffer T) :
  bounds b -> size b < capacity b ->
  start b - 1 + capacity b <= max_int ->
  exists b1 b2,
    Readd x b = (b1, Done true) /\
    start b1 = (start b - 1 + capacity b) mod capacity b /\
    size b1 = size b + 1 /\
    data b1 !! Z.to_nat (start b1) = Some x /\
    contents zero b1 = x :: contents zero b /\
    Pop zero b1 = (b2, Done (zero, x, true)).
Proof.
  intros Hb Hlt Hov.
  destruct (Readd_spec x b (contents zero b) Hb (reps_contents b Hb) Hlt Hov)
    as (b1 & HReadd & Hb1 & Hc1 & Hs1 & Hn1 & Hd1 & Hl1).
  destruct (Pop_spec zero b1 x (contents zero b) Hb1 Hl1)
    as (b2 & HPop & _).
  exists b1, b2. split_and!; try assumption.
  apply (reps_inj b1); [apply reps_contents|]; assumption.
Qed.

(** Below the threshold, adding more items than the capacity and draining
    yields the newest [capacity] items, oldest first. *)
Lemma overwrite_policy c (b0 : RingBuffer T) (items : list T) (fuel : nat) :
  0 < c -> 2 * c <= max_int + 1 ->
  NewRingBuffer zero c = Done b0 ->
  (Z.to_nat c <= length items)%nat -> (Z.to_nat c < fuel)%nat ->
  exists b',
    (add_all items;; drain zero fuel) b0 =
      (b', Done (drop (length items - Z.to_nat c) items)) /\
    size b' = 0.
Proof.
  intros Hc Hov Hnew Hlen Hfuel.
  destruct (NewRingBuffer_bounds zero c b0 ltac:(lia) Hnew)
    as (Hb0 & Hc0 & Hs0 & Hn0 & Hd0).
  destruct (add_all_spec items b0 [] Hb0 (reps_empty b0 Hn0) ltac:(lia))
    as (b1 & Hall & Hb1 & Hc1 & Hl1).
  simpl in Hl1. rewrite Hc0 in Hl1.
  destruct (drain_spec zero fuel b1 _ Hb1 Hl1) as (b' & Hdrain & _ & _ & Hn').
  { rewrite length_drop. lia. }
  exists b'. unfold mbind, M_bind, bind. rewrite Hall. split; assumption.
Qed.

End BelowOverflow.

(** ** Calls at the largest capacity

    [make([]T, cap)] accepts every non-negative [cap] when [T] has size
    zero, so a buffer of capacity [max_int] can be built.  There the sums
    [start + size] and [start - 1 + capacity] overflow. *)

Section AtMaxCapacity.

Context {T : Type} {T_size : Sizeof T}.
Variable zero : T.

Lemma rem_overflow_Add : go_rem (1 +i max_int) max_int = Done (-1).
Proof. vm_compute. reflexivity. Qed.

Lemma rem_overflow_Readd : go_rem (2 -i 1 +i max_int) max_int = Done (-1).
Proof. vm_compute. reflexivity. Qed.

Lemma Add_overflow (x : T) (b : RingBuffer T) :
  bounds b -> capacity b = max_int -> start b = 1 -> size b = max_int ->
  Add x b = (b, Panicked (IndexOutOfRange (-1) max_int)).
Proof.
  intros [Hc Hd Hs Hn Hm] Hcap Hstart Hsize.
  destruct b as [d c s n m]. simpl in *. subst s n m.
  rewrite Hcap in Hd |- *.
  unfold Add. run_method. rewrite rem_overflow_Add.
  rewrite in_range_false by lia. fields. rewrite Hd. reflexivity.
Qed.

Lemma Readd_overflow (x : T) (b : RingBuffer T) :
  bounds b -> capacity b = max_int -> start b = 2 -> size b < max_int ->
  Readd x b =
    (set_start (-1) b, Panicked (IndexOutOfRange (-1) max_int)).
Proof.
  intros [Hc Hd Hs Hn Hm] Hcap Hstart Hsize.
  destruct b as [d c s n m]. simpl in *. subst s m.
  rewrite Hcap in Hd |- *.
  unfold Readd. run_method.
  destruct (Z.eqb_spec n max_int); [lia|]. fields.
  rewrite rem_overflow_Readd. fields.
  rewrite in_range_false by lia. fields. rewrite Hd. reflexivity.
Qed.

Lemma NewRingBuffer_returns c :
  0 <= c -> sizeof * c <= max_alloc ->
  exists b0 : RingBuffer T, NewRingBuffer zero c = Done b0.
Proof.
  intros Hc Hsize. unfold NewRingBuffer.
  destruct (Z.ltb_spec c 0); [lia|].
  destruct (Z.ltb_spec max_alloc (sizeof * c)); [lia|].
  eexists. reflexivity.
Qed.

Lemma max_int_pos : 0 < max_int <= max_int.
Proof. unfold GoInt.max_int. lia. Qed.

(** [Add(x); Add(y); Pop()] on a new buffer of capacity [max_int], and the
    [Pop] after them. *)
Lemma two_adds_two_pops (x y : T) (b0 : RingBuffer T) :
  NewRingBuffer zero max_int = Done b0 ->
  exists b3 b4,
    apply_ops zero [OpAdd x; OpAdd y; OpPop] b0 = b3 /\
    bounds b3 /\ capacity b3 = max_int /\ start b3 = 1 /\ size b3 = 1 /\
    Pop zero b3 = (b4, Done (zero, y, true)) /\
    bounds b4 /\ capacity b4 = max_int /\ start b4 = 2 /\ size b4 = 0.
Proof.
  intros Hnew.
  destruct (NewRingBuffer_bounds zero max_int b0 max_int_pos Hnew)
    as (Hb0 & Hc0 & Hs0 & Hn0 & _).
  destruct (Add_not_full_spec x b0 [] Hb0 (reps_empty b0 Hn0))
    as (b1 & HAdd1 & Hb1 & Hc1 & Hs1 & Hl1);
    [rewrite Hn0, Hc0; apply max_int_pos
    |rewrite Hs0, Hn0; unfold GoInt.max_int; lia|].
  pose proof (reps_length b1 _ Hl1) as Hn1. simpl in Hn1.
  destruct (Add_not_full_spec y b1 _ Hb1 Hl1)
    as (b2 & HAdd2 & Hb2 & Hc2 & Hs2 & Hl2);
    [rewrite <- Hn1, Hc1, Hc0; unfold GoInt.max_int; lia
    |rewrite Hs1, Hs0, <- Hn1; unfold GoInt.max_int; lia|].
  simpl in Hl2.
  destruct (Pop_spec zero b2 x [y] Hb2 Hl2)
    as (b3 & HPop3 & Hb3 & Hc3 & Hs3 & Hl3).
  destruct (Pop_spec zero b3 y [] Hb3 Hl3)
    as (b4 & HPop4 & Hb4 & Hc4 & Hs4 & Hl4).
  pose proof (reps_length b3 _ Hl3) as Hn3. simpl in Hn3.
  pose proof (reps_length b4 _ Hl4) as Hn4. simpl in Hn4.
  exists b3, b4.
  assert (Hcap3 : capacity b3 = max_int) by congruence.
  assert (Hstart3 : start b3 = 1).
  { rewrite Hs3, Hs2, Hs1, Hs0, Hc2, Hc1, Hc0. vm_compute. reflexivity. }
  assert (Hstart4 : start b4 = 2).
  { rewrite Hs4, Hstart3, Hcap3. vm_compute. reflexivity. }
  split_and!; try assumption; try congruence; try lia.
  unfold apply_ops. cbn [fold_left]. unfold apply_op.
  rewrite HAdd1. cbn [fst]. rewrite HAdd2. cbn [fst]. rewrite HPop3.
  reflexivity.
Qed.

(** [capacity + 2] calls of [Add] on a new buffer of capacity [max_int]:
    the last one panics. *)
Lemma add_all_overflow (items : list T) (x y : T) (b0 : RingBuffer T) :
  NewRingBuffer zero max_int = Done b0 ->
  Z.of_nat (length items) = max_int ->
  snd (add_all (items ++ [x; y]) b0) =
    Panicked (IndexOutOfRange (-1) max_int).
Proof.
  intros Hnew Hlen.
  destruct (NewRingBuffer_bounds zero max_int b0 max_int_pos Hnew)
    as (Hb0 & Hc0 & Hs0 & Hn0 & _).
  destruct (add_all_no_evict items b0 [] Hb0 (reps_empty b0 Hn0))
    as (b1 & Hall & Hb1 & Hc1 & Hs1 & Hl1);
    [rewrite Hn0, Hc0; lia|rewrite Hs0, Hc0; lia|].
  simpl in Hl1. pose proof (reps_length b1 _ Hl1) as Hn1.
  destruct (Add_full_spec x b1 _ Hb1 Hl1)
    as (b2 & HAdd2 & Hb2 & Hc2 & Hs2 & Hl2);
    [congruence|rewrite Hs1, Hs0; lia|].
  pose proof (reps_length b2 _ Hl2) as Hn2.
  rewrite length_app, length_drop in Hn2. simpl in Hn2.
  assert (Hstart2 : start b2 = 1).
  { rewrite Hs2, Hs1, Hs0, Hc1, Hc0. vm_compute. reflexivity. }
  rewrite add_all_app. unfold mbind, M_bind, bind. rewrite Hall.
  simpl add_all. unfold mbind, M_bind, bind. rewrite HAdd2.
  rewrite Add_overflow; [reflexivity|exact Hb2|congruence|exact Hstart2|].
  pose proof max_int_pos. lia.
Qed.

End AtMaxCapacity.

(** ** Properties of the buffer *)

Section Properties.

Context {T : Type} {T_size : Sizeof T}.
Variable zero : T.

Lemma locked_releases {A} (body : M T A) (b : RingBuffer T) :
  mu b = false -> mu (fst (locked body b)) = false.
Proof.
  intros Hm. unfold locked, Lock. rewrite Hm.
  destruct (body (set_mu true b)) as [b2 r]. reflexivity.
Qed.

(** [Add], [Pop] and [Readd] release the mutex on every path: normal
    return, early return and panic. *)
Lemma methods_release_mutex (x : T) (b : RingBuffer T) :
  mu b = false ->
  mu (fst (Add x b)) = false /\ mu (fst (Pop zero b)) = false /\
  mu (fst (Readd x b)) = false.
Proof. intros Hm. split_and!; apply locked_releases; exact Hm. Qed.

(** C1: for a buffer built by [NewRingBuffer(c)] with [c > 0], after every
    sequence of [Add], [Pop] and [Readd] calls [Len()] is at least 0 and
    at most [c]. *)
Theorem Len_within_capacity c (b0 : RingBuffer T) (ops : list (op T)) :
  0 < c <= max_int -> NewRingBuffer zero c = Done b0 ->
  exists n,
    Len (apply_ops zero ops b0) = (apply_ops zero ops b0, Done n) /\
    0 <= n <= c.
Proof.
  intros Hc Hnew. exists (size (apply_ops zero ops b0)).
  split; [reflexivity|].
  apply (apply_ops_size_inv zero c ops b0); [lia|].
  apply (NewRingBuffer_size_inv zero); [lia|exact Hnew].
Qed.

(** On a new buffer of any capacity [c > 0], [N <= c] calls of [Add]
    followed by [N] calls of [Pop] return the values in insertion order,
    each with the flag [true]. *)
Lemma fifo_order_new_buffer c (b0 : RingBuffer T) (items : list T) :
  0 < c <= max_int -> NewRingBuffer zero c = Done b0 ->
  Z.of_nat (length items) <= c ->
  exists b',
    (add_all items;; pop_n zero (length items)) b0 =
      (b', Done ((fun v => (v, true)) <$> items)).
Proof.
  intros Hc Hnew Hlen.
  destruct (NewRingBuffer_bounds zero c b0 Hc Hnew)
    as (Hb0 & Hc0 & Hs0 & Hn0 & _).
  destruct (add_all_no_evict items b0 [] Hb0 (reps_empty b0 Hn0))
    as (b1 & Hall & Hb1 & _ & _ & Hl1); [lia|lia|].
  simpl in Hl1.
  destruct (pop_n_spec zero (length items) b1 items Hb1 Hl1 ltac:(lia))
    as (b' & Hpops & _).
  exists b'. unfold mbind, M_bind, bind. rewrite Hall.
  rewrite Hpops, firstn_all. reflexivity.
Qed.

(** C2: on every empty buffer of capacity [c > 0], wherever [start] is,
    [N <= c] calls of [Add] followed by [N] calls of [Pop] return the values
    in insertion order, each with the flag [true].  [start + N] is within
    [int]; on a new buffer, where [start = 0], that is so for every
    capacity. *)
Theorem fifo_order (b : RingBuffer T) (items : list T) :
  bounds b -> size b = 0 ->
  Z.of_nat (length items) <= capacity b ->
  start b + Z.of_nat (length items) <= max_int + 1 ->
  exists b',
    (add_all items;; pop_n zero (length items)) b =
      (b', Done ((fun v => (v, true)) <$> items)).
Proof.
  intros Hb Hn0 Hlen Hov.
  destruct (add_all_within_int items b [] Hb (reps_empty b Hn0))
    as (b1 & Hall & Hb1 & _ & Hl1); [lia|].
  simpl in Hl1.
  replace (length items - Z.to_nat (capacity b))%nat with 0%nat in Hl1 by lia.
  rewrite drop_0 in Hl1.
  destruct (pop_n_spec zero (length items) b1 items Hb1 Hl1 ltac:(lia))
    as (b' & Hpops & _).
  exists b'. unfold mbind, M_bind, bind. rewrite Hall.
  rewrite Hpops, firstn_all. reflexivity.
Qed.


(** C5: on a full buffer ([size == capacity]) [Readd] returns [false] and
    leaves the whole state as it was. *)
Theorem Readd_on_full_rejected (v : T) (b : RingBuffer T) :
  mu b = false -> size b = capacity b ->
  Readd v b = (b, Done false) /\
  Len (fst (Readd v b)) = (b, Done (size b)).
Proof.
  intros Hm Hfull. rewrite Readd_full_spec by assumption.
  split; reflexivity.
Qed.

(** C6: on an empty buffer ([size == 0]) [Pop] returns the zero value of
    [T] with the flag [false] and leaves the whole state as it was. *)
Theorem Pop_on_empty_signal (b : RingBuffer T) :
  mu b = false -> size b = 0 ->
  Pop zero b = (b, Done (zero, zero, false)).
Proof. intros Hm Hn. apply Pop_empty_spec; assumption. Qed.

(** C7: on a buffer with [size > 0], [Pop] succeeds, sets the slot at the
    old [start] to the zero value, leaves every other slot as it was,
    advances [start] by one modulo the capacity and decrements [size];
    the vacated slot is outside the live range afterwards, and if all
    slots outside the live range were cleared before, they all are
    after. *)
Theorem Pop_clears_slot (b : RingBuffer T) :
  bounds b -> 0 < size b ->
  exists v b',
    Pop zero b = (b', Done (zero, v, true)) /\
    data b !! Z.to_nat (start b) = Some v /\
    data b' = <[Z.to_nat (start b) := zero]> (data b) /\
    data b' !! Z.to_nat (start b) = Some zero /\
    (forall i, i <> Z.to_nat (start b) -> data b' !! i = data b !! i) /\
    start b' = (start b + 1) mod capacity b /\
    size b' = size b - 1 /\
    capacity b' = capacity b /\
    ~ live b' (Z.to_nat (start b)) /\
    (cleared zero b -> cleared zero b').
Proof.
  intros Hb Hpos.
  destruct (Pop_nonempty zero b Hb Hpos) as (v & Hv & HPop).
  exists v. eexists. split; [exact HPop|]. fields.
  pose proof Hb as [Hc Hd Hs Hn Hm].
  split_and!; try reflexivity.
  - exact Hv.
  - apply list_lookup_insert_eq. lia.
  - intros i Hi. apply list_lookup_insert_ne. congruence.
  - intros (k & Hk & Hslot). unfold slot in Hslot. fields. simpl in Hk, Hslot.
    rewrite slot_at_succ in Hslot by lia.
    rewrite <- (slot_at_0 (start b) (capacity b)) in Hslot by lia.
    apply slot_at_inj in Hslot; lia.
  - intros Hcl. apply cleared_Pop; assumption.
Qed.

(** C8 (the code departs from it): [Add], [Pop] and [Readd] wait for the
    mutex when it is held, while [Len] returns [size] at once: it never
    calls [Lock]. *)
Theorem Len_takes_no_lock (d : list T) (c s n : Z) (x : T) :
  let b := mkRingBuffer d c s n true in
  Add x b = (b, Blocked) /\
  Pop zero b = (b, Blocked) /\
  Readd x b = (b, Blocked) /\
  Len b = (b, Done n).
Proof. split_and!; reflexivity. Qed.

(** C9, as amended: [NewRingBuffer(capacity)] panics at construction when
    [capacity < 0], and when [capacity] elements of [T] exceed what [make]
    may allocate; it does not panic for [capacity = 0]: it returns a buffer
    with no slots, and the failure comes at the first [Add], which panics
    on the division by zero.  For [capacity >= 0] within the allocation
    limit it returns a buffer with [size = 0], [start = 0] and [capacity]
    zero-valued slots. *)
Theorem NewRingBuffer_spec (c : Z) :
  (c < 0 -> NewRingBuffer zero c = Panicked MakeSliceLen) /\
  (max_alloc < sizeof * c -> NewRingBuffer zero c = Panicked MakeSliceLen) /\
  (c = 0 ->
   exists b,
     NewRingBuffer zero c = Done b /\ data b = [] /\
     forall x, Add x b = (b, Panicked DivideByZero)) /\
  (0 <= c -> sizeof * c <= max_alloc ->
   exists b,
     NewRingBuffer zero c = Done b /\
     size b = 0 /\ start b = 0 /\ capacity b = c /\ mu b = false /\
     data b = replicate (Z.to_nat c) zero /\
     Z.of_nat (length (data b)) = c).
Proof.
  unfold NewRingBuffer. split_and!.
  - intros Hc. destruct (Z.ltb_spec c 0); [reflexivity|lia].
  - intros Hc. destruct (Z.ltb_spec max_alloc (sizeof * c)); [|lia].
    rewrite orb_true_r. reflexivity.
  - intros ->. rewrite Z.mul_0_r.
    eexists. split; [reflexivity|]. split; [reflexivity|].
    intros x. reflexivity.
  - intros Hc Hsize. destruct (Z.ltb_spec c 0); [lia|].
    destruct (Z.ltb_spec max_alloc (sizeof * c)); [lia|].
    eexists. split; [reflexivity|]. fields.
    split_and!; try reflexivity.
    rewrite length_replicate. lia.
Qed.

End Properties.

(** ** Runs at the largest capacity, with elements of size zero

    [unit] stands for [struct{}]: [NewRingBuffer[struct{}](math.MaxInt)]
    allocates nothing and returns. *)

Section MaxCapacityRuns.

(** A run longer than an [int] can count: on a new buffer of capacity
    [max_int], the last of [capacity + 2] calls of [Add] would panic with
    an index of -1. *)
Theorem Add_panics_at_max_capacity :
  exists b0 : RingBuffer unit,
    NewRingBuffer tt max_int = Done b0 /\
    snd (add_all (replicate (Z.to_nat max_int) tt ++ [tt; tt]) b0) =
      Panicked (IndexOutOfRange (-1) max_int).
Proof.
  destruct (NewRingBuffer_returns tt max_int) as [b0 Hnew];
    [apply Z.lt_le_incl, max_int_pos|vm_compute; discriminate|]. exists b0. split; [exact Hnew|].
  apply (add_all_overflow tt); [exact Hnew|].
  rewrite length_replicate. apply Z2Nat.id. apply Z.lt_le_incl, max_int_pos.
Qed.

(** C4 (the code departs from it): on a new buffer of capacity [max_int],
    after [Add; Add; Pop] the buffer holds one element and is not full;
    [Pop] returns it, and the [Readd] of that value panics with an index
    of -1, leaving [start = -1]. *)
Theorem Pop_Readd_panics_at_max_capacity :
  exists b0 : RingBuffer unit,
    NewRingBuffer tt max_int = Done b0 /\
    let b := apply_ops tt [OpAdd tt; OpAdd tt; OpPop] b0 in
    0 < size b < capacity b /\
    exists b1,
      Pop tt b = (b1, Done (tt, tt, true)) /\
      Readd tt b1 =
        (set_start (-1) b1, Panicked (IndexOutOfRange (-1) max_int)).
Proof.
  destruct (NewRingBuffer_returns tt max_int) as [b0 Hnew];
    [apply Z.lt_le_incl, max_int_pos|vm_compute; discriminate|]. exists b0. split; [exact Hnew|].
  destruct (two_adds_two_pops tt tt tt b0 Hnew)
    as (b3 & b4 & Hrun & Hb3 & Hc3 & Hs3 & Hn3 & HPop & Hb4 & Hc4 & Hs4 & Hn4).
  cbv zeta. rewrite Hrun, Hn3, Hc3.
  split; [unfold GoInt.max_int; lia|].
  exists b4. split; [exact HPop|].
  apply Readd_overflow; try assumption.
  rewrite Hn4. apply max_int_pos.
Qed.

(** C10 (the code departs from it): on a new buffer of capacity [max_int],
    after [Add; Add; Pop; Pop] the buffer is empty, hence not full, and
    [Readd] panics with an index of -1 instead of returning [true]. *)
Theorem Readd_panics_at_max_capacity :
  exists b0 : RingBuffer unit,
    NewRingBuffer tt max_int = Done b0 /\
    let b := apply_ops tt [OpAdd tt; OpAdd tt; OpPop; OpPop] b0 in
    0 < capacity b /\ size b < capacity b /\
    Readd tt b =
      (set_start (-1) b, Panicked (IndexOutOfRange (-1) max_int)).
Proof.
  destruct (NewRingBuffer_returns tt max_int) as [b0 Hnew];
    [apply Z.lt_le_incl, max_int_pos|vm_compute; discriminate|]. exists b0. split; [exact Hnew|].
  destruct (two_adds_two_pops tt tt tt b0 Hnew)
    as (b3 & b4 & Hrun & Hb3 & Hc3 & Hs3 & Hn3 & HPop & Hb4 & Hc4 & Hs4 & Hn4).
  assert (Hrun4 : apply_ops tt [OpAdd tt; OpAdd tt; OpPop; OpPop] b0 = b4).
  { change [OpAdd tt; OpAdd tt; OpPop; OpPop]
      with ([OpAdd tt; OpAdd tt; OpPop] ++ [@OpPop unit]).
    unfold apply_ops in *. rewrite fold_left_app, Hrun.
    cbn [fold_left]. unfold apply_op. rewrite HPop. reflexivity. }
  cbv zeta. rewrite Hrun4, Hn4, Hc4.
  split; [apply max_int_pos|]. split; [apply max_int_pos|].
  apply Readd_overflow; try assumption.
  rewrite Hn4. apply max_int_pos.
Qed.

End MaxCapacityRuns.

(** ** Concrete runs *)

Section Runs.

(** The scenario of the specification: capacity 3; [Add] of 1, 2, 3, 4
    leaves 2, 3, 4; [Pop] returns 2; [Readd(2)] puts it back; [Add(5)]
    leaves 3, 4, 5. *)
Example scenario_capacity_3 :
  exists b0 : RingBuffer Z,
    NewRingBuffer 0 3 = Done b0 /\
    let b1 := apply_ops 0 [OpAdd 1; OpAdd 2; OpAdd 3; OpAdd 4] b0 in
    contents 0 b1 = [2; 3; 4] /\
    exists b2,
      Pop 0 b1 = (b2, Done (0, 2, true)) /\
      contents 0 b2 = [3; 4] /\ Len b2 = (b2, Done 2) /\
      exists b3,
        Readd 2 b2 = (b3, Done true) /\
        contents 0 b3 = [2; 3; 4] /\ Len b3 = (b3, Done 3) /\
        contents 0 (apply_op 0 (OpAdd 5) b3) = [3; 4; 5].
Proof.
  exists (mkRingBuffer [0; 0; 0] 3 0 0 false).
  split; [reflexivity|]. cbv zeta. split; [reflexivity|].
  exists (mkRingBuffer [4; 0; 3] 3 2 2 false).
  split; [reflexivity|]. split; [reflexivity|]. split; [reflexivity|].
  exists (mkRingBuffer [4; 2; 3] 3 1 3 false).
  split; [reflexivity|]. split; [reflexivity|]. split; reflexivity.
Qed.

(** C9 as stated fails: [NewRingBuffer(0)] returns a buffer. *)
Lemma NewRingBuffer_zero_capacity_returns :
  @NewRingBuffer Z _ 0 0 = Done (mkRingBuffer [] 0 0 0 false) /\
  ~ (forall cap : Z, cap <= 0 ->
       exists p, @NewRingBuffer Z _ 0 cap = Panicked p).
Proof.
  split; [reflexivity|].
  intros H. destruct (H 0 ltac:(lia)) as [p Hp]. discriminate Hp.
Qed.

Lemma max_int_ge_3 : 0 < 3 <= max_int.
Proof. unfold GoInt.max_int. lia. Defined.

Lemma Len_within_capacity_witness :
  (0 < 3 <= max_int /\
   NewRingBuffer 0 3 = Done (mkRingBuffer [0; 0; 0] 3 0 0 false)) /\
  exists n,
    Len (apply_ops 0 [OpAdd 1; OpAdd 2; OpAdd 3; OpAdd 4; OpPop; OpReadd 7]
           (mkRingBuffer [0; 0; 0] 3 0 0 false)) =
      (apply_ops 0 [OpAdd 1; OpAdd 2; OpAdd 3; OpAdd 4; OpPop; OpReadd 7]
         (mkRingBuffer [0; 0; 0] 3 0 0 false), Done n) /\
    0 <= n <= 3.
Proof.
  split; [split; [exact max_int_ge_3|reflexivity]|].
  apply (Len_within_capacity 0 3); [exact max_int_ge_3|reflexivity].
Defined.

Lemma bounds_empty_at_2 : bounds (mkRingBuffer [0; 0; 0] 3 2 0 false).
Proof.
  constructor; simpl; try reflexivity; try lia. exact max_int_ge_3.
Defined.

Lemma le_max_int_succ z : z <= 6 -> z <= max_int + 1.
Proof. unfold GoInt.max_int. lia. Defined.

Lemma fifo_order_witness :
  (bounds (mkRingBuffer [0; 0; 0] 3 2 0 false) /\
   size (mkRingBuffer [0; 0; 0] 3 2 0 false) = 0 /\
   Z.of_nat (length [5; 6; 7]) <=
     capacity (mkRingBuffer [0; 0; 0] 3 2 0 false) /\
   start (mkRingBuffer [0; 0; 0] 3 2 0 false) + Z.of_nat (length [5; 6; 7])
     <= max_int + 1) /\
  exists b',
    (add_all [5; 6; 7];; pop_n 0 (length [5; 6; 7]))
      (mkRingBuffer [0; 0; 0] 3 2 0 false) =
      (b', Done ((fun v => (v, true)) <$> [5; 6; 7])).
Proof.
  assert (H : bounds (mkRingBuffer [0; 0; 0] 3 2 0 false) /\
              size (mkRingBuffer [0; 0; 0] 3 2 0 false) = 0 /\
              Z.of_nat (length [5; 6; 7]) <=
                capacity (mkRingBuffer [0; 0; 0] 3 2 0 false) /\
              start (mkRingBuffer [0; 0; 0] 3 2 0 false) +
                Z.of_nat (length [5; 6; 7]) <= max_int + 1).
  { split; [exact bounds_empty_at_2|]. split; [reflexivity|].
    split; [simpl; lia|]. apply le_max_int_succ. simpl. lia. }
  split; [exact H|].
  apply (fifo_order 0 (mkRingBuffer [0; 0; 0] 3 2 0 false) [5; 6; 7]); apply H.
Defined.


Lemma Readd_on_full_rejected_witness :
  (mu (mkRingBuffer [4; 2; 3] 3 1 3 false) = false /\
   size (mkRingBuffer [4; 2; 3] 3 1 3 false) =
     capacity (mkRingBuffer [4; 2; 3] 3 1 3 false)) /\
  Readd 9 (mkRingBuffer [4; 2; 3] 3 1 3 false) =
    (mkRingBuffer [4; 2; 3] 3 1 3 false, Done false) /\
  Len (fst (Readd 9 (mkRingBuffer [4; 2; 3] 3 1 3 false))) =
    (mkRingBuffer [4; 2; 3] 3 1 3 false, Done 3).
Proof.
  split; [split; reflexivity|].
  apply (Readd_on_full_rejected 9 (mkRingBuffer [4; 2; 3] 3 1 3 false));
    reflexivity.
Defined.

Lemma Pop_on_empty_signal_witness :
  (mu (mkRingBuffer [0; 0; 0] 3 0 0 false) = false /\
   size (mkRingBuffer [0; 0; 0] 3 0 0 false) = 0) /\
  Pop 0 (mkRingBuffer [0; 0; 0] 3 0 0 false) =
    (mkRingBuffer [0; 0; 0] 3 0 0 false, Done (0, 0, false)).
Proof.
  split; [split; reflexivity|].
  apply (Pop_on_empty_signal 0 (mkRingBuffer [0; 0; 0] 3 0 0 false));
    reflexivity.
Defined.

Lemma bounds_423 : bounds (mkRingBuffer [4; 2; 3] 3 1 3 false).
Proof.
  constructor; simpl; try reflexivity; try lia. exact max_int_ge_3.
Defined.

Lemma Pop_clears_slot_witness :
  (bounds (mkRingBuffer [4; 2; 3] 3 1 3 false) /\
   0 < size (mkRingBuffer [4; 2; 3] 3 1 3 false)) /\
  exists v b',
    Pop 0 (mkRingBuffer [4; 2; 3] 3 1 3 false) = (b', Done (0, v, true)) /\
    [4; 2; 3] !! Z.to_nat 1 = Some v /\
    data b' = <[Z.to_nat 1 := 0]> [4; 2; 3] /\
    data b' !! Z.to_nat 1 = Some 0 /\
    (forall i, i <> Z.to_nat 1 -> data b' !! i = [4; 2; 3] !! i) /\
    start b' = (1 + 1) mod 3 /\
    size b' = 3 - 1 /\
    capacity b' = 3 /\
    ~ live b' (Z.to_nat 1) /\
    (cleared 0 (mkRingBuffer [4; 2; 3] 3 1 3 false) -> cleared 0 b').
Proof.
  split; [split; [exact bounds_423|reflexivity]|].
  apply (Pop_clears_slot 0 (mkRingBuffer [4; 2; 3] 3 1 3 false));
    [exact bounds_423|reflexivity].
Defined.

Lemma NewRingBuffer_spec_witness :
  (-1 < 0 /\ max_alloc < sizeof (T := Z) * 2 ^ 62 /\ 0 = 0 /\
   0 <= 3 /\ sizeof (T := Z) * 3 <= max_alloc) /\
  @NewRingBuffer Z _ 0 (-1) = Panicked MakeSliceLen /\
  @NewRingBuffer Z _ 0 (2 ^ 62) = Panicked MakeSliceLen /\
  (exists b,
     @NewRingBuffer Z _ 0 0 = Done b /\ data b = [] /\
     forall x, Add x b = (b, Panicked DivideByZero)) /\
  exists b,
    NewRingBuffer 0 3 = Done b /\
    size b = 0 /\ start b = 0 /\ capacity b = 3 /\ mu b = false /\
    data b = replicate (Z.to_nat 3) 0 /\
    Z.of_nat (length (data b)) = 3.
Proof.
  assert (Hbig : max_alloc < sizeof (T := Z) * 2 ^ 62)
    by (vm_compute; reflexivity).
  assert (Hsmall : sizeof (T := Z) * 3 <= max_alloc)
    by (vm_compute; discriminate).
  split; [split; [lia|split; [exact Hbig|split; [reflexivity|split;
    [lia|exact Hsmall]]]]|].
  split; [apply (proj1 (NewRingBuffer_spec 0 (-1))); lia|].
  split; [apply (proj1 (proj2 (NewRingBuffer_spec 0 (2 ^ 62)))); exact Hbig|].
  split; [apply (proj1 (proj2 (proj2 (NewRingBuffer_spec 0 0)))); reflexivity|].
  apply (proj2 (proj2 (proj2 (NewRingBuffer_spec 0 3)))); [lia|exact Hsmall].
Defined.

End Runs.

(** ** The buffer as a bounded queue *)

Section QueueModel.

Context {T : Type}.
Variable zero : T.

(** What a call hands back to its caller. *)
Inductive returned : Type :=
| RetAdd
| RetPop (z result : T) (ok : bool)
| RetReadd (ok : bool).

(** One call, with its outcome. *)
Definition call (o : op T) : M T returned :=
  match o with
  | OpAdd item => Add item;; mret RetAdd
  | OpPop => '(z, result, ok) ← Pop zero; mret (RetPop z result ok)
  | OpReadd item => ok ← Readd item; mret (RetReadd ok)
  end.

(** The queue of at most [c] elements after one call: [Add] appends and
    drops the oldest element of a full queue, [Pop] drops the oldest
    element, [Readd] prepends unless the queue is full. *)
Definition queue_step (c : Z) (o : op T) (q : list T) : list T :=
  match o with
  | OpAdd item =>
      if Z.of_nat (length q) <? c then q ++ [item] else drop 1 q ++ [item]
  | OpPop => drop 1 q
  | OpReadd item => if Z.of_nat (length q) <? c then item :: q else q
  end.

Definition queue_run (c : Z) (ops : list (op T)) (q : list T) : list T :=
  fold_left (fun q o => queue_step c o q) ops q.

(** What the call returns on the queue [q]. *)
Definition queue_returned (c : Z) (o : op T) (q : list T) : returned :=
  match o with
  | OpAdd _ => RetAdd
  | OpPop =>
      match q with
      | [] => RetPop zero zero false
      | v :: _ => RetPop zero v true
      end
  | OpReadd _ => RetReadd (Z.of_nat (length q) <? c)
  end.

End QueueModel.

Arguments returned T : clear implicits.

Section QueueRefinement.

Context {T : Type}.
Variable zero : T.

Lemma call_state (o : op T) (b : RingBuffer T) :
  fst (call zero o b) = apply_op zero o b.
Proof.
  destruct o as [x| |x]; unfold call, apply_op, mbind, M_bind, bind.
  - destruct (Add x b) as [b' [[]| |]]; reflexivity.
  - destruct (Pop zero b) as [b' [[[z r] ok]| |]]; reflexivity.
  - destruct (Readd x b) as [b' [ok| |]]; reflexivity.
Qed.

(** One call below the overflow threshold follows the queue. *)
Lemma call_refines (o : op T) (b : RingBuffer T) q :
  2 * capacity b <= max_int + 1 -> bounds b -> reps b q ->
  call zero o b =
    (apply_op zero o b, Done (queue_returned zero (capacity b) o q)) /\
  bounds (apply_op zero o b) /\
  capacity (apply_op zero o b) = capacity b /\
  reps (apply_op zero o b) (queue_step (capacity b) o q).
Proof.
  intros Hov Hb Hq.
  pose proof (bounds_start b Hb) as Hs. pose proof (bounds_size b Hb) as Hn.
  pose proof (reps_length b q Hq) as Hlen.
  destruct o as [x| |x]; unfold call, apply_op, queue_step, queue_returned,
    mbind, M_bind, bind.
  - destruct (Z.ltb_spec (Z.of_nat (length q)) (capacity b)) as [Hlt|Hge].
    + destruct (Add_not_full_spec x b q Hb Hq)
        as (b' & HAdd & Hb' & Hc' & _ & Hq'); [lia|lia|].
      rewrite HAdd. split_and!; try assumption; reflexivity.
    + destruct (Add_full_spec x b q Hb Hq)
        as (b' & HAdd & Hb' & Hc' & _ & Hq'); [lia|lia|].
      rewrite HAdd. split_and!; try assumption; reflexivity.
  - destruct q as [|v q].
    + simpl in Hlen.
      rewrite Pop_empty_spec by (try apply Hb; lia).
      split_and!; try assumption; reflexivity.
    + destruct (Pop_spec zero b v q Hb Hq) as (b' & HPop & Hb' & Hc' & _ & Hq').
      rewrite HPop. simpl. rewrite drop_0.
      split_and!; try assumption; reflexivity.
  - destruct (Z.ltb_spec (Z.of_nat (length q)) (capacity b)) as [Hlt|Hge].
    + destruct (Readd_spec x b q Hb Hq)
        as (b' & HReadd & Hb' & Hc' & _ & _ & _ & Hq'); [lia|lia|].
      rewrite HReadd. split_and!; try assumption; reflexivity.
    + rewrite Readd_full_spec by (try apply Hb; lia).
      split_and!; try assumption; reflexivity.
Qed.

Lemma apply_ops_refines (ops : list (op T)) (b : RingBuffer T) q :
  2 * capacity b <= max_int + 1 -> bounds b -> reps b q ->
  bounds (apply_ops zero ops b) /\
  capacity (apply_ops zero ops b) = capacity b /\
  reps (apply_ops zero ops b) (queue_run (capacity b) ops q).
Proof.
  revert b q. induction ops as [|o ops IH]; intros b q Hov Hb Hq; simpl.
  - split_and!; try assumption; reflexivity.
  - destruct (call_refines o b q Hov Hb Hq) as (_ & Hb1 & Hc1 & Hq1).
    destruct (IH (apply_op zero o b) (queue_step (capacity b) o q))
      as (Hb' & Hc' & Hq'); [rewrite Hc1; exact Hov|assumption..|].
    rewrite Hc1 in Hq'. split_and!; try assumption. congruence.
Qed.

End QueueRefinement.

(** ** Storage *)

Section Storage.

Context {T : Type}.
Variable zero : T.

(** No call changes the capacity or the length of the slice, whether it
    returns, panics or blocks. *)
Lemma apply_op_storage (o : op T) (b : RingBuffer T) :
  capacity (apply_op zero o b) = capacity b /\
  length (data (apply_op zero o b)) = length (data b).
Proof.
  destruct b as [d c s n m].
  destruct o as [x| |x]; unfold apply_op, Add, Pop, Readd; run_method;
    destruct m; fields; try (split; reflexivity);
    repeat case_inner; rewrite ?length_insert; split; reflexivity.
Qed.

Lemma apply_ops_storage (ops : list (op T)) (b : RingBuffer T) :
  capacity (apply_ops zero ops b) = capacity b /\
  length (data (apply_ops zero ops b)) = length (data b).
Proof.
  revert b. induction ops as [|o ops IH]; intros b; simpl.
  - split; reflexivity.
  - destruct (IH (apply_op zero o b)) as [Hc Hd].
    destruct (apply_op_storage o b) as [Hc1 Hd1].
    split; congruence.
Qed.

Lemma Pop_spec_cleared (b : RingBuffer T) v l :
  bounds b -> cleared zero b -> reps b (v :: l) ->
  exists b',
    Pop zero b = (b', Done (zero, v, true)) /\ bounds b' /\
    cleared zero b' /\ capacity b' = capacity b /\ reps b' l.
Proof.
  intros Hb Hcl Hl.
  destruct (Pop_spec zero b v l Hb Hl) as (b' & HPop & Hb' & Hc' & _ & Hl').
  exists b'. split_and!; try assumption.
  assert (Hpos : 0 < size b)
    by (pose proof (reps_length b _ Hl) as Hlen; simpl in Hlen; lia).
  destruct (Pop_nonempty zero b Hb Hpos) as (v' & _ & HPop').
  rewrite HPop in HPop'. injection HPop' as -> _.
  apply cleared_Pop; assumption.
Qed.

Lemma drain_cleared (fuel : nat) (b : RingBuffer T) l :
  bounds b -> cleared zero b -> reps b l -> (length l < fuel)%nat ->
  exists b',
    drain zero fuel b = (b', Done l) /\ bounds b' /\ cleared zero b' /\
    capacity b' = capacity b /\ size b' = 0.
Proof.
  revert b l. induction fuel as [|fuel IH]; intros b l Hb Hcl Hl Hfuel; [lia|].
  destruct l as [|v l].
  - exists b. simpl. unfold mbind, M_bind, bind.
    pose proof (reps_length b _ Hl) as Hlen. simpl in Hlen.
    rewrite Pop_empty_spec by (try apply Hb; lia).
    split_and!; try assumption; try reflexivity; lia.
  - simpl in Hfuel.
    destruct (Pop_spec_cleared b v l Hb Hcl Hl)
      as (b1 & HPop & Hb1 & Hcl1 & Hc1 & Hl1).
    destruct (IH b1 l Hb1 Hcl1 Hl1 ltac:(lia))
      as (b' & Hdrain & Hb' & Hcl' & Hc' & Hn').
    exists b'. simpl. unfold mbind, M_bind, bind. rewrite HPop.
    rewrite Hdrain.
    split_and!; try assumption; try congruence; reflexivity.
Qed.

Lemma cleared_empty_all_zero (b : RingBuffer T) :
  bounds b -> cleared zero b -> size b = 0 ->
  data b = replicate (Z.to_nat (capacity b)) zero.
Proof.
  intros [Hc Hd Hs Hn Hm] Hcl Hz. apply list_eq. intros i.
  destruct (Nat.lt_ge_cases i (length (data b))) as [Hi|Hi].
  - rewrite lookup_replicate_2 by lia.
    apply Hcl; [exact Hi|]. intros (k & Hk & _). lia.
  - rewrite lookup_ge_None_2 by exact Hi.
    symmetry. apply lookup_replicate_None. lia.
Qed.

Lemma readd_back_start s c :
  0 <= s < c -> ((s - 1 + c) mod c + 1) mod c = s.
Proof.
  intros H. rewrite Zplus_mod_idemp_l.
  replace (s - 1 + c + 1) with (s + 1 * c) by lia.
  rewrite Z.mod_add, Z.mod_small; lia.
Qed.

End Storage.

(** ** Further properties of the buffer *)

Section FurtherProperties.

Context {T : Type} {T_size : Sizeof T}.
Variable zero : T.

(** X1: on a buffer that is not full, [Add] writes the item into the slot
    [(start + size) mod capacity] and nowhere else, keeps [start], and
    appends the item to the queue: nothing is evicted. *)
Theorem Add_appends_when_not_full (x : T) (b : RingBuffer T) :
  bounds b -> size b < capacity b -> start b + size b <= max_int ->
  exists b',
    Add x b = (b', Done tt) /\
    data b' =
      <[Z.to_nat ((start b + size b) mod capacity b) := x]> (data b) /\
    start b' = start b /\ size b' = size b + 1 /\
    capacity b' = capacity b /\
    contents zero b' = contents zero b ++ [x].
Proof.
  intros Hb Hlt Hov.
  destruct (Add_not_full_spec x b _ Hb (reps_contents zero b Hb) Hlt Hov)
    as (b' & HAdd & Hb' & Hc' & Hs' & Hq').
  exists b'. split; [exact HAdd|].
  pose proof (Add_not_full x b Hb Hlt Hov) as HAdd'.
  rewrite HAdd in HAdd'. injection HAdd' as Hstate.
  pose proof (bounds_size b Hb) as Hn.
  split_and!; try assumption.
  - rewrite Hstate. fields. unfold slot, slot_at.
    rewrite Z2Nat.id by lia. reflexivity.
  - rewrite Hstate. reflexivity.
  - apply (reps_inj b'); [apply reps_contents|]; assumption.
Qed.

(** X2: on a full buffer, [Add] overwrites the slot at [start] with the
    item, advances [start] by one modulo the capacity, keeps [size], and
    the queue loses its oldest element and gains the item at the end. *)
Theorem Add_evicts_oldest_when_full (x : T) (b : RingBuffer T) :
  bounds b -> size b = capacity b -> start b + size b <= max_int ->
  exists b',
    Add x b = (b', Done tt) /\
    data b' = <[Z.to_nat (start b) := x]> (data b) /\
    start b' = (start b + 1) mod capacity b /\ size b' = size b /\
    capacity b' = capacity b /\
    contents zero b' = drop 1 (contents zero b) ++ [x].
Proof.
  intros Hb Hfull Hov.
  destruct (Add_full_spec x b _ Hb (reps_contents zero b Hb) Hfull Hov)
    as (b' & HAdd & Hb' & Hc' & Hs' & Hq').
  exists b'. split; [exact HAdd|].
  pose proof (Add_full x b Hb Hfull Hov) as HAdd'.
  rewrite HAdd in HAdd'. injection HAdd' as Hstate.
  split_and!; try assumption.
  - rewrite Hstate. reflexivity.
  - rewrite Hstate. reflexivity.
  - apply (reps_inj b'); [apply reps_contents|]; assumption.
Qed.

(** X3: on a buffer whose queue is [v :: l], [Pop] returns [v] with the flag
    [true] and leaves the queue [l], for every capacity. *)
Theorem Pop_returns_oldest (b : RingBuffer T) (v : T) (l : list T) :
  bounds b -> contents zero b = v :: l ->
  exists b',
    Pop zero b = (b', Done (zero, v, true)) /\
    contents zero b' = l /\ size b' = size b - 1.
Proof.
  intros Hb Hq.
  pose proof (reps_contents zero b Hb) as Hreps. rewrite Hq in Hreps.
  destruct (Pop_spec zero b v l Hb Hreps) as (b' & HPop & Hb' & _ & _ & Hl').
  exists b'. split; [exact HPop|]. split.
  - apply (reps_inj b'); [apply reps_contents|]; assumption.
  - pose proof (reps_length b _ Hreps) as H1.
    pose proof (reps_length b' _ Hl') as H2. simpl in H1. lia.
Qed.

(** X4: on a buffer that is not full, [Readd] returns [true], moves [start]
    back by one modulo the capacity, writes the item there and nowhere
    else, and the item becomes the oldest element of the queue. *)
Theorem Readd_prepends_when_not_full (x : T) (b : RingBuffer T) :
  bounds b -> size b < capacity b ->
  start b - 1 + capacity b <= max_int ->
  exists b',
    Readd x b = (b', Done true) /\
    start b' = (start b - 1 + capacity b) mod capacity b /\
    data b' = <[Z.to_nat (start b') := x]> (data b) /\
    size b' = size b + 1 /\ capacity b' = capacity b /\
    contents zero b' = x :: contents zero b.
Proof.
  intros Hb Hlt Hov.
  destruct (Readd_spec x b _ Hb (reps_contents zero b Hb) Hlt Hov)
    as (b' & HReadd & Hb' & Hc' & Hs' & Hn' & _ & Hq').
  exists b'. split; [exact HReadd|].
  pose proof (Readd_not_full x b Hb Hlt Hov) as HReadd'.
  rewrite HReadd in HReadd'. injection HReadd' as Hstate.
  split_and!; try assumption.
  - rewrite Hstate. reflexivity.
  - apply (reps_inj b'); [apply reps_contents|]; assumption.
Qed.

(** X5: with [2 * capacity <= max_int + 1], after every sequence of calls on
    a new buffer the queue held is the one the bounded-queue model gives,
    and the next call returns what the model returns: no call panics or
    blocks. *)
Theorem buffer_refines_queue c (b0 : RingBuffer T) (ops : list (op T))
    (o : op T) :
  0 < c -> 2 * c <= max_int + 1 -> NewRingBuffer zero c = Done b0 ->
  contents zero (apply_ops zero ops b0) = queue_run c ops [] /\
  call zero o (apply_ops zero ops b0) =
    (apply_op zero o (apply_ops zero ops b0),
     Done (queue_returned zero c o (queue_run c ops []))).
Proof.
  intros Hc Hov Hnew.
  destruct (NewRingBuffer_bounds zero c b0 ltac:(lia) Hnew)
    as (Hb0 & Hc0 & _ & Hn0 & _).
  destruct (apply_ops_refines zero ops b0 [] ltac:(lia) Hb0 (reps_empty b0 Hn0))
    as (Hb & Hcap & Hq).
  rewrite Hc0 in Hq, Hcap. split.
  - apply (reps_inj (apply_ops zero ops b0)); [apply reps_contents|]; assumption.
  - assert (Hov' : 2 * capacity (apply_ops zero ops b0) <= max_int + 1)
      by (rewrite Hcap; exact Hov).
    rewrite <- Hcap in Hq.
    destruct (call_refines zero o _ _ Hov' Hb Hq) as (Hcall & _).
    rewrite Hcap in Hcall. exact Hcall.
Qed.

(** X6: whatever the calls do, return, panic or block, the capacity and the
    length of the slice stay those of the constructor: the storage is never
    resized. *)
Theorem storage_never_resized c (b0 : RingBuffer T) (ops : list (op T)) :
  0 <= c -> NewRingBuffer zero c = Done b0 ->
  capacity (apply_ops zero ops b0) = c /\
  Z.of_nat (length (data (apply_ops zero ops b0))) = c.
Proof.
  intros Hc Hnew. destruct (NewRingBuffer_Done zero c b0 Hnew) as (_ & _ & ->).
  destruct (apply_ops_storage zero ops
              (mkRingBuffer (replicate (Z.to_nat c) zero) c 0 0 false))
    as [Hcap Hlen].
  rewrite Hcap, Hlen. fields. rewrite length_replicate. split; lia.
Qed.

(** X7: a buffer of capacity 0 is inert: every [Add] panics on the division
    by zero, every [Pop] and every [Readd] returns its failure result, and
    no sequence of calls changes the buffer. *)
Theorem zero_capacity_inert (ops : list (op T)) (x : T) :
  let b0 := mkRingBuffer [] 0 0 0 false in
  NewRingBuffer zero 0 = Done b0 /\
  Add x b0 = (b0, Panicked DivideByZero) /\
  Pop zero b0 = (b0, Done (zero, zero, false)) /\
  Readd x b0 = (b0, Done false) /\
  apply_ops zero ops b0 = b0.
Proof.
  cbv zeta. split_and!; try reflexivity.
  - unfold NewRingBuffer. rewrite Z.mul_0_r. reflexivity.
  - induction ops as [|o ops IH]; [reflexivity|].
    simpl. destruct o; exact IH.
Qed.

(** X8: with [2 * capacity <= max_int + 1], draining a buffer after any
    sequence of calls returns its queue, oldest first, and leaves every slot
    of the storage at the zero value. *)
Theorem drain_clears_storage c (b0 : RingBuffer T) (ops : list (op T))
    (fuel : nat) :
  0 < c -> 2 * c <= max_int + 1 -> NewRingBuffer zero c = Done b0 ->
  (Z.to_nat c < fuel)%nat ->
  exists b',
    drain zero fuel (apply_ops zero ops b0) =
      (b', Done (contents zero (apply_ops zero ops b0))) /\
    size b' = 0 /\ data b' = replicate (Z.to_nat c) zero.
Proof.
  intros Hc Hov Hnew Hfuel.
  destruct (reached_wf zero c b0 ops Hc Hov Hnew) as (Hb & Hcl & Hcap).
  pose proof (reps_contents zero _ Hb) as Hq.
  pose proof (reps_length _ _ Hq) as Hlen.
  pose proof (bounds_size _ Hb) as Hn.
  destruct (drain_cleared zero fuel _ _ Hb Hcl Hq ltac:(lia))
    as (b' & Hdrain & Hb' & Hcl' & Hc' & Hn').
  exists b'. split_and!; try assumption.
  rewrite (cleared_empty_all_zero zero b' Hb' Hcl' Hn'). congruence.
Qed.

(** X9: with [2 * capacity <= max_int + 1], every state reached from a new
    buffer has [0 <= start < capacity], [0 <= size <= capacity], a slice of
    [capacity] slots and a free mutex, and every slot outside the live
    range holds the zero value. *)
Theorem reachable_well_formed c (b0 : RingBuffer T) (ops : list (op T)) :
  0 < c -> 2 * c <= max_int + 1 -> NewRingBuffer zero c = Done b0 ->
  let b := apply_ops zero ops b0 in
  capacity b = c /\ Z.of_nat (length (data b)) = c /\
  0 <= start b < c /\ 0 <= size b <= c /\ mu b = false /\
  forall i, (i < length (data b))%nat -> ~ live b i ->
    data b !! i = Some zero.
Proof.
  intros Hc Hov Hnew. cbv zeta.
  destruct (reached_wf zero c b0 ops Hc Hov Hnew) as ([_ Hd Hs Hn Hm] & Hcl & Hcap).
  rewrite Hcap in Hd, Hs, Hn. split_and!; try assumption; try lia.
Qed.

(** X10: on a well-shaped buffer that is not full and whose dead slots are
    cleared, [Readd] followed by [Pop] returns the item and restores the
    buffer exactly. *)
Theorem Readd_then_Pop_restores (x : T) (b : RingBuffer T) :
  bounds b -> cleared zero b -> size b < capacity b ->
  start b - 1 + capacity b <= max_int ->
  exists b1,
    Readd x b = (b1, Done true) /\
    Pop zero b1 = (b, Done (zero, x, true)).
Proof.
  intros Hb Hcl Hlt Hov.
  pose proof (Readd_not_full x b Hb Hlt Hov) as HReadd.
  eexists. split; [exact HReadd|].
  assert (Hb1 : bounds (apply_op zero (OpReadd x) b)).
  { apply returned_bounds; [exact Hb|]. rewrite HReadd. eexists; reflexivity. }
  unfold apply_op in Hb1. rewrite HReadd in Hb1. cbn [fst] in Hb1.
  destruct Hb as [Hc Hd Hs Hn Hm]. destruct b as [d c s n m].
  unfold cleared, live, slot in Hcl. simpl in *. subst m.
  pose proof (Z.mod_pos_bound (s - 1 + c) c ltac:(lia)) as Hs'.
  destruct (Pop_nonempty zero _ Hb1 ltac:(fields; lia)) as (v & Hv & HPop).
  fields. cbn [data start capacity size] in Hv, HPop.
  rewrite list_lookup_insert_eq in Hv by lia. injection Hv as <-.
  rewrite HPop. rewrite readd_back_start by lia.
  rewrite list_insert_insert_eq.
  rewrite list_insert_id.
  - do 2 f_equal. lia.
  - apply Hcl; [lia|]. intros (k & Hk & Hslot).
    rewrite <- (slot_at_pred_0 s c) in Hslot by lia.
    rewrite <- (slot_at_pred s c k) in Hslot by lia.
    apply slot_at_inj in Hslot; lia.
Qed.

(** X11: with [2 * capacity <= max_int + 1], on a buffer that is neither
    empty nor full, [Pop] followed by [Readd] of the popped value returns
    [true] and restores the buffer exactly, so [Len] and the next [Pop] are
    what they were. *)
Theorem Pop_then_Readd_restores (b : RingBuffer T) :
  bounds b -> 0 < size b < capacity b ->
  2 * capacity b <= max_int + 1 ->
  exists v b1,
    Pop zero b = (b1, Done (zero, v, true)) /\
    Readd v b1 = (b, Done true).
Proof.
  intros Hb Hn Hov.
  destruct (Pop_Readd_restores zero b Hb Hn Hov) as (v & b1 & HPop & HReadd & _).
  exists v, b1. split; assumption.
Qed.

(** X12: with [2 * capacity <= max_int + 1], adding at least [capacity]
    items to a new buffer and draining it yields the newest [capacity]
    items, oldest first; the earlier ones are lost. *)
Theorem overwrite_keeps_newest c (b0 : RingBuffer T) (items : list T)
    (fuel : nat) :
  0 < c -> 2 * c <= max_int + 1 -> NewRingBuffer zero c = Done b0 ->
  (Z.to_nat c <= length items)%nat -> (Z.to_nat c < fuel)%nat ->
  exists b',
    (add_all items;; drain zero fuel) b0 =
      (b', Done (drop (length items - Z.to_nat c) items)) /\
    size b' = 0.
Proof.
  intros Hc Hov Hnew Hlen Hfuel.
  exact (overwrite_policy zero c b0 items fuel Hc Hov Hnew Hlen Hfuel).
Qed.

End FurtherProperties.

(** ** Further concrete runs *)

Section FurtherRuns.

(** A new buffer of capacity 3, the buffer holding 3, 4 and the full buffer
    holding 2, 3, 4. *)
Definition buf_new : RingBuffer Z := mkRingBuffer [0; 0; 0] 3 0 0 false.
Definition buf_34 : RingBuffer Z := mkRingBuffer [4; 0; 3] 3 2 2 false.
Definition buf_234 : RingBuffer Z := mkRingBuffer [4; 2; 3] 3 1 3 false.

Lemma threshold_3 : 2 * 3 <= max_int + 1.
Proof. unfold GoInt.max_int. lia. Defined.

Lemma small_le_max_int z : z <= 6 -> z <= max_int.
Proof. unfold GoInt.max_int. lia. Defined.

Lemma bounds_buf_34 : bounds buf_34.
Proof.
  constructor; simpl; try reflexivity; try lia. exact max_int_ge_3.
Defined.

Lemma bounds_buf_234 : bounds buf_234.
Proof. exact bounds_423. Defined.

Lemma cleared_buf_34 : cleared 0 buf_34.
Proof.
  intros i Hi Hdead. simpl in Hi.
  destruct i as [|[|[|i]]]; [| reflexivity | |lia]; exfalso; apply Hdead.
  - exists 1%nat. split; [simpl; lia|reflexivity].
  - exists 0%nat. split; [simpl; lia|reflexivity].
Defined.

Lemma Add_appends_when_not_full_witness :
  (bounds buf_34 /\ size buf_34 < capacity buf_34 /\
   start buf_34 + size buf_34 <= max_int) /\
  exists b',
    Add 5 buf_34 = (b', Done tt) /\
    data b' =
      <[Z.to_nat ((start buf_34 + size buf_34) mod capacity buf_34) := 5]>
        (data buf_34) /\
    start b' = start buf_34 /\ size b' = size buf_34 + 1 /\
    capacity b' = capacity buf_34 /\
    contents 0 b' = contents 0 buf_34 ++ [5].
Proof.
  assert (H : bounds buf_34 /\ size buf_34 < capacity buf_34 /\
              start buf_34 + size buf_34 <= max_int).
  { split; [exact bounds_buf_34|]. split; [reflexivity|].
    apply small_le_max_int. simpl. lia. }
  split; [exact H|].
  apply (Add_appends_when_not_full 0 5 buf_34); apply H.
Defined.

Lemma Add_evicts_oldest_when_full_witness :
  (bounds buf_234 /\ size buf_234 = capacity buf_234 /\
   start buf_234 + size buf_234 <= max_int) /\
  exists b',
    Add 5 buf_234 = (b', Done tt) /\
    data b' = <[Z.to_nat (start buf_234) := 5]> (data buf_234) /\
    start b' = (start buf_234 + 1) mod capacity buf_234 /\
    size b' = size buf_234 /\
    capacity b' = capacity buf_234 /\
    contents 0 b' = drop 1 (contents 0 buf_234) ++ [5].
Proof.
  assert (H : bounds buf_234 /\ size buf_234 = capacity buf_234 /\
              start buf_234 + size buf_234 <= max_int).
  { split; [exact bounds_buf_234|]. split; [reflexivity|].
    apply small_le_max_int. simpl. lia. }
  split; [exact H|].
  apply (Add_evicts_oldest_when_full 0 5 buf_234); apply H.
Defined.

Lemma Pop_returns_oldest_witness :
  (bounds buf_234 /\ contents 0 buf_234 = 2 :: [3; 4]) /\
  exists b',
    Pop 0 buf_234 = (b', Done (0, 2, true)) /\
    contents 0 b' = [3; 4] /\ size b' = size buf_234 - 1.
Proof.
  split; [split; [exact bounds_buf_234|reflexivity]|].
  apply (Pop_returns_oldest 0 buf_234 2 [3; 4]);
    [exact bounds_buf_234|reflexivity].
Defined.

Lemma Readd_prepends_when_not_full_witness :
  (bounds buf_34 /\ size buf_34 < capacity buf_34 /\
   start buf_34 - 1 + capacity buf_34 <= max_int) /\
  exists b',
    Readd 2 buf_34 = (b', Done true) /\
    start b' = (start buf_34 - 1 + capacity buf_34) mod capacity buf_34 /\
    data b' = <[Z.to_nat (start b') := 2]> (data buf_34) /\
    size b' = size buf_34 + 1 /\ capacity b' = capacity buf_34 /\
    contents 0 b' = 2 :: contents 0 buf_34.
Proof.
  assert (H : bounds buf_34 /\ size buf_34 < capacity buf_34 /\
              start buf_34 - 1 + capacity buf_34 <= max_int).
  { split; [exact bounds_buf_34|]. split; [reflexivity|].
    apply small_le_max_int. simpl. lia. }
  split; [exact H|].
  apply (Readd_prepends_when_not_full 0 2 buf_34); apply H.
Defined.

Lemma buffer_refines_queue_witness :
  (0 < 3 /\ 2 * 3 <= max_int + 1 /\ NewRingBuffer 0 3 = Done buf_new) /\
  contents 0
    (apply_ops 0 [OpAdd 1; OpAdd 2; OpAdd 3; OpAdd 4; OpPop; OpReadd 2]
       buf_new) =
    queue_run 3 [OpAdd 1; OpAdd 2; OpAdd 3; OpAdd 4; OpPop; OpReadd 2] [] /\
  call 0 (OpAdd 5)
    (apply_ops 0 [OpAdd 1; OpAdd 2; OpAdd 3; OpAdd 4; OpPop; OpReadd 2]
       buf_new) =
    (apply_op 0 (OpAdd 5)
       (apply_ops 0 [OpAdd 1; OpAdd 2; OpAdd 3; OpAdd 4; OpPop; OpReadd 2]
          buf_new),
     Done (queue_returned 0 3 (OpAdd 5)
             (queue_run 3
                [OpAdd 1; OpAdd 2; OpAdd 3; OpAdd 4; OpPop; OpReadd 2] []))).
Proof.
  split; [split; [lia|split; [exact threshold_3|reflexivity]]|].
  apply (buffer_refines_queue 0 3 buf_new);
    [lia|exact threshold_3|reflexivity].
Defined.

Lemma storage_never_resized_witness :
  (0 <= 3 /\ NewRingBuffer 0 3 = Done buf_new) /\
  capacity (apply_ops 0 [OpAdd 1; OpAdd 2; OpAdd 3; OpAdd 4; OpPop] buf_new)
    = 3 /\
  Z.of_nat
    (length
       (data (apply_ops 0 [OpAdd 1; OpAdd 2; OpAdd 3; OpAdd 4; OpPop] buf_new)))
    = 3.
Proof.
  split; [split; [lia|reflexivity]|].
  apply (storage_never_resized 0 3 buf_new); [lia|reflexivity].
Defined.

Lemma drain_clears_storage_witness :
  (0 < 3 /\ 2 * 3 <= max_int + 1 /\ NewRingBuffer 0 3 = Done buf_new /\
   (Z.to_nat 3 < 4)%nat) /\
  exists b',
    drain 0 4 (apply_ops 0 [OpAdd 1; OpAdd 2; OpAdd 3; OpAdd 4] buf_new) =
      (b', Done (contents 0
                   (apply_ops 0 [OpAdd 1; OpAdd 2; OpAdd 3; OpAdd 4] buf_new)))
    /\ size b' = 0 /\ data b' = replicate (Z.to_nat 3) 0.
Proof.
  split; [split; [lia|split; [exact threshold_3|split; [reflexivity|simpl; lia]]]|].
  apply (drain_clears_storage 0 3 buf_new);
    [lia|exact threshold_3|reflexivity|simpl; lia].
Defined.

Lemma reachable_well_formed_witness :
  (0 < 3 /\ 2 * 3 <= max_int + 1 /\ NewRingBuffer 0 3 = Done buf_new) /\
  let b := apply_ops 0 [OpAdd 1; OpAdd 2; OpPop] buf_new in
  capacity b = 3 /\ Z.of_nat (length (data b)) = 3 /\
  0 <= start b < 3 /\ 0 <= size b <= 3 /\ mu b = false /\
  forall i, (i < length (data b))%nat -> ~ live b i -> data b !! i = Some 0.
Proof.
  split; [split; [lia|split; [exact threshold_3|reflexivity]]|].
  apply (reachable_well_formed 0 3 buf_new);
    [lia|exact threshold_3|reflexivity].
Defined.

Lemma Readd_then_Pop_restores_witness :
  (bounds buf_34 /\ cleared 0 buf_34 /\ size buf_34 < capacity buf_34 /\
   start buf_34 - 1 + capacity buf_34 <= max_int) /\
  exists b1,
    Readd 2 buf_34 = (b1, Done true) /\
    Pop 0 b1 = (buf_34, Done (0, 2, true)).
Proof.
  assert (H : bounds buf_34 /\ cleared 0 buf_34 /\
              size buf_34 < capacity buf_34 /\
              start buf_34 - 1 + capacity buf_34 <= max_int).
  { split; [exact bounds_buf_34|]. split; [exact cleared_buf_34|].
    split; [reflexivity|]. apply small_le_max_int. simpl. lia. }
  split; [exact H|].
  apply (Readd_then_Pop_restores 0 2 buf_34); apply H.
Defined.

Lemma Pop_then_Readd_restores_witness :
  (bounds buf_34 /\ 0 < size buf_34 < capacity buf_34 /\
   2 * capacity buf_34 <= max_int + 1) /\
  exists v b1,
    Pop 0 buf_34 = (b1, Done (0, v, true)) /\
    Readd v b1 = (buf_34, Done true).
Proof.
  assert (H : bounds buf_34 /\ 0 < size buf_34 < capacity buf_34 /\
              2 * capacity buf_34 <= max_int + 1).
  { split; [exact bounds_buf_34|]. split; [split; reflexivity|].
    exact threshold_3. }
  split; [exact H|].
  apply (Pop_then_Readd_restores 0 buf_34); apply H.
Defined.

Lemma overwrite_keeps_newest_witness :
  (0 < 3 /\ 2 * 3 <= max_int + 1 /\ NewRingBuffer 0 3 = Done buf_new /\
   (Z.to_nat 3 <= length [1; 2; 3; 4; 5])%nat /\ (Z.to_nat 3 < 4)%nat) /\
  exists b',
    (add_all [1; 2; 3; 4; 5];; drain 0 4) buf_new =
      (b', Done (drop (length [1; 2; 3; 4; 5] - Z.to_nat 3) [1; 2; 3; 4; 5])) /\
    size b' = 0.
Proof.
  split; [split; [lia|split; [exact threshold_3|split;
    [reflexivity|split; simpl; lia]]]|].
  apply (overwrite_keeps_newest 0 3 buf_new [1; 2; 3; 4; 5] 4);
    [lia|exact threshold_3|reflexivity|simpl; lia|simpl; lia].
Defined.

End FurtherRuns.

(** ** The mutex between calls *)

Section Mutex.

Context {T : Type} {T_size : Sizeof T}.
Variable zero : T.

Lemma apply_op_mu (o : op T) (b : RingBuffer T) :
  mu b = false -> mu (apply_op zero o b) = false.
Proof.
  intros Hm. destruct o; unfold apply_op, Add, Pop, Readd;
    apply locked_releases; exact Hm.
Qed.

Lemma apply_ops_mu (ops : list (op T)) (b : RingBuffer T) :
  mu b = false -> mu (apply_ops zero ops b) = false.
Proof.
  revert b. induction ops as [|o ops IH]; intros b Hm; simpl.
  - exact Hm.
  - apply IH, apply_op_mu, Hm.
Qed.

Lemma call_not_blocked (o : op T) (b : RingBuffer T) :
  mu b = false -> snd (call zero o b) <> Blocked.
Proof.
  intros Hm. destruct b as [d c s n m]. simpl in Hm. subst m.
  destruct o as [x| |x]; unfold call, Add, Pop, Readd; run_method;
    repeat case_inner; fields; try discriminate;
    match goal with
    | H : go_rem _ _ = Blocked |- _ =>
        unfold go_rem in H; destruct (_ =? _) in H; discriminate H
    end.
Qed.

(** X13: for every capacity, after any sequence of calls on a new buffer,
    including calls that panicked, the mutex is free, and the next call
    does not block: the deferred [Unlock] runs on every path. *)
Theorem mutex_free_between_calls c (b0 : RingBuffer T) (ops : list (op T))
    (o : op T) :
  0 <= c -> NewRingBuffer zero c = Done b0 ->
  mu (apply_ops zero ops b0) = false /\
  snd (call zero o (apply_ops zero ops b0)) <> Blocked.
Proof.
  intros Hc Hnew. destruct (NewRingBuffer_Done zero c b0 Hnew) as (_ & _ & ->).
  assert (Hm : mu (apply_ops zero ops
                     (mkRingBuffer (replicate (Z.to_nat c) zero) c 0 0 false))
               = false) by (apply apply_ops_mu; reflexivity).
  split; [exact Hm|]. apply call_not_blocked. exact Hm.
Qed.

End Mutex.

Section MutexRuns.

Lemma mutex_free_between_calls_witness :
  (0 <= 0 /\ @NewRingBuffer Z _ 0 0 = Done (mkRingBuffer [] 0 0 0 false)) /\
  mu (apply_ops 0 [OpAdd 1; OpPop] (mkRingBuffer [] 0 0 0 false)) = false /\
  snd (call 0 (OpAdd 2)
         (apply_ops 0 [OpAdd 1; OpPop] (mkRingBuffer [] 0 0 0 false)))
    <> Blocked.
Proof.
  split; [split; [lia|reflexivity]|].
  apply (mutex_free_between_calls 0 0 (mkRingBuffer [] 0 0 0 false));
    [lia|reflexivity].
Defined.

End MutexRuns.
End RB.
